(** * spectral.c: coordinate grids, disk profiles and blackbody intensity

    A shallow embedding of [src/c_src/spectral.c] and the proofs of its
    specification.

    Conventions of the embedding.
    - A C [double] (and a [float]) is a real number of [R]; the operators
      [+ - * /] and the [math.h] functions [sqrt], [exp], [cos], [sin] are
      those of the real-number library, [pow(x, 2)] and [pow(x, 3)] are
      [x ^ 2] and [x ^ 3].  Rounding (also the single-precision quotient of
      [linspace]) and the IEEE special values (infinities, NaN, the sign of
      zero) are outside this model: an equation of the model holds of the
      running code up to rounding.
    - Where a property of the real-number model fails in the running code
      (saturation and overflow of [exp], the sign of zero), the expression
      of the cell is evaluated on binary64 numbers, in module [Binary64].
    - A [double *] obtained from [malloc] is a [list R] addressed by position;
      [a[i]] is [load a i] and [a[i] = v] is [store a i v].  Allocation always
      succeeds.  An access outside the allocated cells is undefined in C; the
      loops below write allocated cells only, and the theorems take input
      planes of [dim*dim] cells.
    - A [long long] dimension is a [Z]; a loop with bound [dim] runs
      [Z.to_nat dim] times, one with bound [dim*dim] runs [Z.to_nat (dim*dim)]
      times, the counters being [nat].  The product [dim*dim] is taken in [Z]:
      planes whose [dim*dim] leaves the [long long] range do not fit in memory.
    - A [for (i = 0; i < n; ++i)] loop is [for_loop n body s], the state [s]
      holding the variables the body assigns.
    - [pow(x, y)] with an exponent that is not a literal is [libm_pow x y].
    - [main] only returns [0] and is not embedded. *)

From Stdlib Require Import Reals Lra Lia ZArith.
From Stdlib Require PrimFloat.
From stdpp Require Import base list.

Open Scope R_scope.

(** ** Arrays and loops *)

Abbreviation array := (list R).

(** [malloc(n*sizeof(double))]: [n] cells.  Their contents are indeterminate
    in C; for a dimension that is not negative every function below writes a
    cell before anything reads it, so the initial contents never show. *)
Definition malloc (n : nat) : array := replicate n 0.

Definition load (a : array) (i : nat) : R := default 0 (a !! i).

Definition store (a : array) (i : nat) (v : R) : array := <[i := v]> a.

(** [for_from i n body s] runs [body i], [body (i+1)], ..., [body (i+n-1)]. *)
Fixpoint for_from {St : Type} (i n : nat) (body : nat -> St -> St) (s : St) : St :=
  match n with
  | O => s
  | S n' => for_from (S i) n' body (body i s)
  end.

Definition for_loop {St : Type} (n : nat) (body : nat -> St -> St) (s : St) : St :=
  for_from 0 n body s.

(** Row-major view of a flat [dim*dim] plane: element [(i, j)]. *)
Definition at2 (a : array) (n i j : nat) : R := load a (i * n + j).

(** The rows of a flat plane with rows of length [n] (for display). *)
Fixpoint rows (n k : nat) (a : array) : list (list R) :=
  match k with
  | O => []
  | S k' => take n a :: rows n k' (drop n a)
  end.

(** ** Physical constants (lines 7-11) *)

Definition c : R := 2.99792458e+10.
Definition c2 : R := 8.98755179e+20.
Definition h : R := 6.62607015e-27.
Definition kb : R := 1.380649e-16.
Definition bb_to_jy : R := 1.0e+23.

(** The constants [c] and [c2] as the binary64 values the compiler stores,
    to compare them without the idealisation by reals. *)
Module Binary64.
Import PrimFloat.

Definition c : float := 2.99792458e+10%float.

#[warnings="-inexact-float"] Definition c2 : float := 8.98755179e+20%float.

#[warnings="-inexact-float"] Definition h : float := 6.62607015e-27%float.

#[warnings="-inexact-float"] Definition kb : float := 1.380649e-16%float.

(** *** The arithmetic of single cells in binary64

    Where the real numbers hide what the running code does (saturation,
    overflow, the sign of zero), the expression of one cell is evaluated on
    binary64 numbers.  The operators are those of IEEE 754; of the [math.h]
    functions only the values that IEEE 754 and Annex F of the C standard
    fix are modelled, the others are [None]. *)

(** [exp(x)]: above [710] the result exceeds the largest binary64 number and
    is [+inf]; below [-746] it is less than half the smallest one and is
    [+0].  In between the value depends on the library. *)
Definition exp (x : float) : option float :=
  if (710 <? x)%float then Some infinity
  else if (x <? -746)%float then Some zero
  else None.

(** [pow(x, 3)], up to one rounding. *)
Definition pow3 (x : float) : float := (x * x * x)%float.







(** One cell of [optical_thickness] (line 111). *)
Definition optical_thickness_cell (sigma opacity : float) : option float :=
  match exp (- sigma * opacity)%float with
  | Some e => Some (1 - e)%float
  | None => None
  end.

(** [bb] (lines 116-119). *)
Definition bb (temperature wavelength : float) : option float :=
  let nu := (c / wavelength)%float in
  match exp (h * nu / (kb * temperature))%float with
  | Some e => Some ((2 * h * pow3 nu / c2) * (1 / (e - 1)))%float
  | None => None
  end.

End Binary64.

(** ** linspace (lines 14-22) *)

Definition linspace (start stop : R) (dim : Z) (factor : R) : array :=
  let step := (stop - start) / IZR dim in
  let linear_grid := malloc (Z.to_nat dim) in
  for_loop (Z.to_nat dim)
    (fun i linear_grid => store linear_grid i ((start + INR i * step) * factor))
    linear_grid.

(** ** meshgrid (lines 24-38)

    The loop state is the pair of the local [temp] and the array [mesh].  The
    body runs only when [dim] is positive, where the position [i*dim+j] is
    [i * n + j] for [n = Z.to_nat dim]. *)

Definition meshgrid (linear_grid : array) (dim : Z) (axis : Z) : array :=
  let n := Z.to_nat dim in
  let mesh := malloc (Z.to_nat (dim * dim)) in
  let temp := 0 in
  snd (for_loop n
         (fun i st =>
            for_loop n
              (fun j '(temp, mesh) =>
                 let temp := if (axis =? 0)%Z then load linear_grid i
                             else load linear_grid j in
                 (temp, store mesh (i * n + j) temp))
              st)
         (temp, mesh)).

(** The value the inner loop body assigns to [temp], and then to
    [mesh[i*dim+j]], at row [i] and column [j]. *)
Definition mesh_value (linear_grid : array) (axis : Z) (i j : nat) : R :=
  if (axis =? 0)%Z then load linear_grid i else load linear_grid j.

(** ** grid (lines 40-56) *)

(** Modelled from the spec: [struct Grid] is declared in [spectral.h], which
    is not among the sources.  The spec's Grid is a pair of [dim x dim]
    real-valued planes [xx] and [yy] in row-major layout; [grid] assigns the
    two fields [grid.xx] and [grid.yy]. *)
Record Grid := mkGrid { xx : array; yy : array }.

Definition set_xx (g : Grid) (a : array) : Grid := mkGrid a (yy g).
Definition set_yy (g : Grid) (a : array) : Grid := mkGrid (xx g) a.

Definition grid (dim : Z) (pixel_size pa elong : R) (elliptic : Z) : Grid :=
  let x := linspace (-0.5) 0.5 dim (IZR dim * pixel_size) in
  let grid := mkGrid (meshgrid x dim 1) (meshgrid x dim 0) in
  if (elliptic =? 0)%Z then grid
  else
    for_loop (Z.to_nat (dim * dim))
      (fun i grid =>
         let grid :=
           set_xx grid
             (store (xx grid) i
                (load (xx grid) i * cos pa - load (yy grid) i * sin pa)) in
         let grid :=
           set_yy grid
             (store (yy grid) i
                ((load (xx grid) i * sin pa + load (yy grid) i * cos pa) / elong)) in
         grid)
      grid.

(** ** radius (lines 59-65) *)

Definition radius (xx yy : array) (dim : Z) : array :=
  let radius := malloc (Z.to_nat (dim * dim)) in
  for_loop (Z.to_nat (dim * dim))
    (fun i radius => store radius i (sqrt (load xx i ^ 2 + load yy i ^ 2)))
    radius.

(** ** const_temperature (lines 68-75) *)

Definition const_temperature
    (radius : array) (stellar_radius stellar_temperature : R) (dim : Z) : array :=
  let const_temperature := malloc (Z.to_nat (dim * dim)) in
  for_loop (Z.to_nat (dim * dim))
    (fun i const_temperature =>
       store const_temperature i
         (stellar_temperature * sqrt (stellar_radius / (2 * load radius i))))
    const_temperature.

(** ** temperature_power_law (lines 77-84) and surface_density_profile
    (lines 86-94) *)

(** [pow(x, y)] of [math.h] on real arguments.  For a positive base it is
    [exp (y * ln x)]; for a base that is not positive and an integral
    exponent it is the integer power, and [pow(0, y) = 0] for [y > 0].  Where
    C returns no finite number (a negative base with a fractional exponent,
    a zero base with a negative exponent) the value is outside the model. *)
Definition libm_pow (x y : R) : R :=
  if Rlt_dec 0 x then Rpower x y
  else if Req_dec_T y (IZR (Int_part y)) then powerRZ x (Int_part y)
  else 0.

Definition temperature_power_law
    (radius : array) (inner_temp inner_radius q : R) (dim : Z) : array :=
  let temperature_power_law := malloc (Z.to_nat (dim * dim)) in
  for_loop (Z.to_nat (dim * dim))
    (fun i temperature_power_law =>
       store temperature_power_law i
         (inner_temp * libm_pow (load radius i / inner_radius) (- q)))
    temperature_power_law.

Definition surface_density_profile
    (radius : array) (inner_radius inner_sigma p : R) (dim : Z) : array :=
  let sigma_profile := malloc (Z.to_nat (dim * dim)) in
  for_loop (Z.to_nat (dim * dim))
    (fun i sigma_profile =>
       store sigma_profile i
         (inner_sigma * libm_pow (load radius i / inner_radius) (- p)))
    sigma_profile.

(** ** azimuthal_modulation (lines 97-104) *)

(** [atan2(y, x)] of [math.h] on real arguments: the angle in [(-PI, PI]] of
    the point [(x, y)], see [atan2_range] and [atan2_polar] below.  At the
    origin, where no angle is determined, it has the value that Annex F of
    the C standard gives for positive zeros, [atan2(0, 0) = 0]. *)

Definition atan2 (y x : R) : R :=
  if Rlt_dec 0 x then atan (y / x)
  else if Rlt_dec x 0 then
    (if Rle_dec 0 y then atan (y / x) + PI else atan (y / x) - PI)
  else if Rlt_dec 0 y then PI / 2
  else if Rlt_dec y 0 then - PI / 2
  else 0.


Definition azimuthal_modulation (xx yy : array) (a phi : R) (dim : Z) : array :=
  let modulation := malloc (Z.to_nat (dim * dim)) in
  for_loop (Z.to_nat (dim * dim))
    (fun i modulation =>
       store modulation i (a * cos (atan2 (load yy i) (load xx i) - phi)))
    modulation.

(** ** optical_thickness (lines 107-114) *)

Definition optical_thickness
    (surface_density_profile : array) (opacity : R) (dim : Z) : array :=
  let optical_thickness := malloc (Z.to_nat (dim * dim)) in
  for_loop (Z.to_nat (dim * dim))
    (fun i optical_thickness =>
       store optical_thickness i
         (1 - exp (- load surface_density_profile i * opacity)))
    optical_thickness.

(** ** bb (lines 116-119) *)

Definition bb (temperature wavelength : R) : R :=
  let nu := c / wavelength in
  (2 * h * nu ^ 3 / c2) * (1 / (exp (h * nu / (kb * temperature)) - 1)).

(** ** intensity (lines 122-129) *)

Definition intensity
    (temperature_profile : array) (wavelength pixel_size : R) (dim : Z) : array :=
  let intensity := malloc (Z.to_nat (dim * dim)) in
  for_loop (Z.to_nat (dim * dim))
    (fun i intensity =>
       store intensity i
         (bb (load temperature_profile i) wavelength * pixel_size ^ 2 * bb_to_jy))
    intensity.

(** ** Planck's law as the specification words it

    [B(T, lambda) = (2 h nu^3 / c^2) * 1 / (exp (h nu / (k T)) - 1)] with
    [nu = c / lambda]: the denominator is the square of the speed of light
    [c], where [bb] has the separate constant [c2]. *)

Definition planck_law (T lambda : R) : R :=
  let nu := c / lambda in
  (2 * h * nu ^ 3 / c ^ 2) * (1 / (exp (h * nu / (kb * T)) - 1)).

(** ** Reasoning about arrays and loops *)

Lemma length_malloc n : length (malloc n) = n.
Proof. apply length_replicate. Qed.

Lemma length_store a i v : length (store a i v) = length a.
Proof. apply length_insert. Qed.

Lemma load_store_eq a i v : (i < length a)%nat -> load (store a i v) i = v.
Proof.
  intros Hi. unfold load, store.
  now rewrite list_lookup_insert_eq.
Qed.

Lemma load_store_ne a i j v : i <> j -> load (store a i v) j = load a j.
Proof.
  intros Hij. unfold load, store.
  now rewrite list_lookup_insert_ne.
Qed.

Lemma load_lookup (a : array) i : (i < length a)%nat -> a !! i = Some (load a i).
Proof.
  intros Hi. unfold load.
  destruct (lookup_lt_is_Some_2 a i Hi) as [v ->]. reflexivity.
Qed.

(** The number of cells of a plane, [dim*dim], for a dimension that is not
    negative. *)
Lemma to_nat_square (dim : Z) :
  (0 <= dim)%Z -> Z.to_nat (dim * dim) = (Z.to_nat dim * Z.to_nat dim)%nat.
Proof. intros Hd. now apply Z2Nat.inj_mul. Qed.

Lemma to_nat_square_lt (dim : Z) (k : nat) :
  (k < Z.to_nat dim * Z.to_nat dim)%nat ->
  Z.to_nat (dim * dim) = (Z.to_nat dim * Z.to_nat dim)%nat.
Proof. intros Hk. apply to_nat_square. lia. Qed.

Section Loops.
Context {St : Type}.
Variable body : nat -> St -> St.

Lemma for_from_snoc i n s :
  for_from i (S n) body s = body (i + n)%nat (for_from i n body s).
Proof.
  revert i s. induction n as [|n IH]; intros i s.
  - simpl. now rewrite Nat.add_0_r.
  - change (for_from i (S (S n)) body s)
      with (for_from (S i) (S n) body (body i s)).
    rewrite IH. simpl. now rewrite Nat.add_succ_r.
Qed.

Lemma for_loop_snoc n s :
  for_loop (S n) body s = body n (for_loop n body s).
Proof. unfold for_loop. now rewrite for_from_snoc. Qed.

(** The invariant rule of the counting loop. *)
Lemma for_loop_inv (Inv : nat -> St -> Prop) n s :
  Inv O s ->
  (forall i t, (i < n)%nat -> Inv i t -> Inv (S i) (body i t)) ->
  Inv n (for_loop n body s).
Proof.
  intros H0 Hstep. induction n as [|n IH].
  - exact H0.
  - rewrite for_loop_snoc. apply Hstep; [lia|].
    apply IH. intros i t Hi. apply Hstep. lia.
Qed.
End Loops.

(** A loop that writes [f i] into cell [i] of a fresh array of [n] cells. *)
Section Fill.
Variable f : nat -> R.
Variable n : nat.

Let filled := for_loop n (fun i a => store a i (f i)) (malloc n).

Lemma fill_inv :
  length filled = n /\ forall k, (k < n)%nat -> load filled k = f k.
Proof.
  unfold filled.
  apply (for_loop_inv (fun i a => store a i (f i))
           (fun i a => length a = n /\
                       forall k, (k < i)%nat -> load a k = f k)).
  - split; [apply length_malloc | intros k Hk; lia].
  - intros i a Hi [Hlen Hpre]. split.
    + now rewrite length_store.
    + intros k Hk. destruct (Nat.eq_dec i k) as [->|Hne].
      * apply load_store_eq. lia.
      * rewrite load_store_ne by exact Hne. apply Hpre. lia.
Qed.

Lemma fill_length : length filled = n.
Proof. apply fill_inv. Qed.

Lemma fill_load k : (k < n)%nat -> load filled k = f k.
Proof. apply fill_inv. Qed.

Lemma fill_map : filled = f <$> seq 0 n.
Proof.
  apply list_eq. intros k.
  destruct (Nat.lt_ge_cases k n) as [Hk|Hk].
  - rewrite load_lookup by (rewrite fill_length; exact Hk).
    rewrite fill_load by exact Hk.
    rewrite list_lookup_fmap, lookup_seq_lt by exact Hk. reflexivity.
  - rewrite lookup_ge_None_2 by (rewrite fill_length; exact Hk).
    rewrite list_lookup_fmap, lookup_seq_ge by exact Hk. reflexivity.
Qed.
End Fill.

(** ** linspace *)

Lemma linspace_map start stop dim factor :
  linspace start stop dim factor =
  (fun i => (start + INR i * ((stop - start) / IZR dim)) * factor)
    <$> seq 0 (Z.to_nat dim).
Proof. unfold linspace. apply fill_map. Qed.


Lemma linspace_load start stop dim factor i :
  (i < Z.to_nat dim)%nat ->
  load (linspace start stop dim factor) i =
  (start + INR i * ((stop - start) / IZR dim)) * factor.
Proof.
  intros Hi. unfold linspace.
  now rewrite (fill_load (fun i => (start + INR i * _) * factor)).
Qed.

(** ** meshgrid *)

Section Meshgrid.
Variable linear_grid : array.
Variable dim axis : Z.

Let n := Z.to_nat dim.

Let inner (i : nat) :=
  for_loop n
    (fun j '(temp, mesh) =>
       let temp := if (axis =? 0)%Z then load linear_grid i
                   else load linear_grid j in
       (temp, store mesh (i * n + j) temp)).

(** Cells below the flat position [p] hold their final value. *)
Let done_below (p : nat) (st : R * array) : Prop :=
  length (snd st) = Z.to_nat (dim * dim) /\
  forall i j, (j < n)%nat -> (i * n + j < p)%nat ->
              load (snd st) (i * n + j) = mesh_value linear_grid axis i j.

Lemma meshgrid_inner i st :
  (i < n)%nat -> done_below (i * n) st -> done_below (S i * n) (inner i st).
Proof.
  intros Hi Hst.
  replace (S i * n)%nat with (i * n + n)%nat by lia.
  unfold inner.
  apply (for_loop_inv _ (fun j st => done_below (i * n + j) st)).
  - now rewrite Nat.add_0_r.
  - clear st Hst. intros j [temp mesh] Hj [Hlen Hpre]. split; simpl in *.
    + now rewrite length_store.
    + intros i' j' Hj' Hlt.
      destruct (Nat.eq_dec (i * n + j)%nat (i' * n + j')%nat) as [Heq|Hne].
      * assert (i' = i) as -> by nia.
        assert (j' = j) as -> by lia.
        rewrite load_store_eq; [reflexivity|].
        rewrite Hlen, (to_nat_square_lt dim (i * n + j)); fold n; nia.
      * rewrite load_store_ne by exact Hne. apply Hpre; [exact Hj'|lia].
Qed.

Lemma meshgrid_inv :
  length (meshgrid linear_grid dim axis) = Z.to_nat (dim * dim) /\
  forall i j, (i < n)%nat -> (j < n)%nat ->
              at2 (meshgrid linear_grid dim axis) n i j = mesh_value linear_grid axis i j.
Proof.
  assert (done_below (n * n)
            (for_loop n inner (0, malloc (Z.to_nat (dim * dim))))) as [Hlen H].
  { apply (for_loop_inv inner (fun i st => done_below (i * n) st)).
    - split; simpl; [apply length_malloc | intros; lia].
    - intros i st Hi. now apply meshgrid_inner. }
  split; [exact Hlen|].
  intros i j Hi Hj. unfold at2. apply H; [exact Hj | nia].
Qed.

Lemma meshgrid_length :
  length (meshgrid linear_grid dim axis) = Z.to_nat (dim * dim).
Proof. apply meshgrid_inv. Qed.

Lemma meshgrid_at2 i j :
  (i < n)%nat -> (j < n)%nat ->
  at2 (meshgrid linear_grid dim axis) n i j = mesh_value linear_grid axis i j.
Proof. apply meshgrid_inv. Qed.
End Meshgrid.

(** ** grid *)

Lemma grid_plain dim pixel_size pa elong :
  let x := linspace (-0.5) 0.5 dim (IZR dim * pixel_size) in
  grid dim pixel_size pa elong 0 = mkGrid (meshgrid x dim 1) (meshgrid x dim 0).
Proof. reflexivity. Qed.

(** The rotation loop of [grid] (lines 50-53), run on any pair of planes of
    [m] cells. *)
Section Rotation.
Variables pa elong : R.
Variable g0 : Grid.
Variable m : nat.
Hypothesis Hxx : length (xx g0) = m.
Hypothesis Hyy : length (yy g0) = m.

Let rotate (i : nat) (grid : Grid) : Grid :=
  let grid :=
    set_xx grid
      (store (xx grid) i
         (load (xx grid) i * cos pa - load (yy grid) i * sin pa)) in
  let grid :=
    set_yy grid
      (store (yy grid) i
         ((load (xx grid) i * sin pa + load (yy grid) i * cos pa) / elong)) in
  grid.

(** Cells below [i] are rotated, cells from [i] on are untouched. *)
Let rotated_below (i : nat) (g : Grid) : Prop :=
  length (xx g) = m /\ length (yy g) = m /\
  (forall k, (k < i)%nat ->
     load (xx g) k = load (xx g0) k * cos pa - load (yy g0) k * sin pa /\
     load (yy g) k = (load (xx g) k * sin pa + load (yy g0) k * cos pa) / elong) /\
  (forall k, (i <= k)%nat ->
     load (xx g) k = load (xx g0) k /\ load (yy g) k = load (yy g0) k).

Lemma rotate_step i g :
  (i < m)%nat -> rotated_below i g -> rotated_below (S i) (rotate i g).
Proof.
  intros Hi (Hlx & Hly & Hlow & Hhigh).
  destruct (Hhigh i (Nat.le_refl i)) as [Hxi Hyi].
  unfold rotate, rotated_below, set_xx, set_yy. simpl.
  rewrite !length_store. repeat split; try assumption.
  - destruct (Nat.eq_dec i k) as [<-|Hne].
    + rewrite load_store_eq by lia. now rewrite Hxi, Hyi.
    + rewrite load_store_ne by exact Hne. apply Hlow. lia.
  - destruct (Nat.eq_dec i k) as [<-|Hne].
    + rewrite !load_store_eq by lia. now rewrite Hyi.
    + rewrite !load_store_ne by exact Hne. apply Hlow. lia.
  - rewrite load_store_ne by lia. apply Hhigh. lia.
  - rewrite load_store_ne by lia. apply Hhigh. lia.
Qed.

Lemma rotate_all : rotated_below m (for_loop m rotate g0).
Proof.
  apply (for_loop_inv rotate rotated_below).
  - repeat split; try assumption; lia.
  - exact rotate_step.
Qed.
End Rotation.

Lemma grid_lengths dim pixel_size pa elong elliptic :
  length (xx (grid dim pixel_size pa elong elliptic)) = Z.to_nat (dim * dim) /\
  length (yy (grid dim pixel_size pa elong elliptic)) = Z.to_nat (dim * dim).
Proof.
  unfold grid.
  set (x := linspace _ _ _ _).
  destruct (elliptic =? 0)%Z; simpl.
  - split; apply meshgrid_length.
  - destruct (rotate_all pa elong
                (mkGrid (meshgrid x dim 1) (meshgrid x dim 0))
                (Z.to_nat (dim * dim)))
      as (Hx & Hy & _); try apply meshgrid_length.
    split; assumption.
Qed.

Lemma grid_rotated dim pixel_size pa elong elliptic k :
  let n := Z.to_nat dim in
  let g0 := grid dim pixel_size pa elong 0 in
  let g := grid dim pixel_size pa elong elliptic in
  elliptic <> 0%Z -> (k < n * n)%nat ->
  load (xx g) k = load (xx g0) k * cos pa - load (yy g0) k * sin pa /\
  load (yy g) k = (load (xx g) k * sin pa + load (yy g0) k * cos pa) / elong.
Proof.
  intros n g0 g Hne Hk.
  apply Z.eqb_neq in Hne.
  unfold g, grid. rewrite Hne. fold g0.
  destruct (rotate_all pa elong g0 (Z.to_nat (dim * dim))) as (_ & _ & Hlow & _);
    try apply meshgrid_length.
  apply Hlow. rewrite (to_nat_square_lt dim k); exact Hk.
Qed.

(** ** Pointwise maps: radius, azimuthal_modulation, optical_thickness,
    intensity *)

Lemma radius_map xx yy dim :
  radius xx yy dim =
  (fun i => sqrt (load xx i ^ 2 + load yy i ^ 2))
    <$> seq 0 (Z.to_nat (dim * dim)).
Proof. unfold radius. apply fill_map. Qed.

Lemma azimuthal_modulation_map xx yy a phi dim :
  azimuthal_modulation xx yy a phi dim =
  (fun i => a * cos (atan2 (load yy i) (load xx i) - phi))
    <$> seq 0 (Z.to_nat (dim * dim)).
Proof. unfold azimuthal_modulation. apply fill_map. Qed.

Lemma optical_thickness_map sdp opacity dim :
  optical_thickness sdp opacity dim =
  (fun i => 1 - exp (- load sdp i * opacity))
    <$> seq 0 (Z.to_nat (dim * dim)).
Proof. unfold optical_thickness. apply fill_map. Qed.

Lemma intensity_map temperature_profile wavelength pixel_size dim :
  intensity temperature_profile wavelength pixel_size dim =
  (fun i => bb (load temperature_profile i) wavelength * pixel_size ^ 2 * bb_to_jy)
    <$> seq 0 (Z.to_nat (dim * dim)).
Proof. unfold intensity. apply fill_map. Qed.

Lemma lookup_pointwise (f : nat -> R) n i :
  (i < n)%nat -> (f <$> seq 0 n) !! i = Some (f i).
Proof.
  intros Hi. rewrite list_lookup_fmap, lookup_seq_lt by exact Hi. reflexivity.
Qed.

Lemma load_pointwise (f : nat -> R) n i :
  (i < n)%nat -> load (f <$> seq 0 n) i = f i.
Proof. intros Hi. unfold load. now rewrite lookup_pointwise. Qed.

(** * Theorems *)

(** ** The end-to-end scenario *)

Lemma sqrt2_bounds : 1.414 < sqrt 2 < 1.415.
Proof.
  split.
  - replace 1.414 with (sqrt (1.414 * 1.414)) by (apply sqrt_square; lra).
    apply sqrt_lt_1_alt. lra.
  - replace 1.415 with (sqrt (1.415 * 1.415)) by (apply sqrt_square; lra).
    apply sqrt_lt_1_alt. lra.
Qed.

Lemma sqrt_cell (x y v : R) :
  0 <= v -> x * x + y * y = v * v -> sqrt (x * (x * 1) + y * (y * 1)) = v.
Proof.
  intros Hv Heq.
  replace (x * (x * 1) + y * (y * 1)) with (v * v) by lra.
  now apply sqrt_square.
Qed.

Lemma axis_dim2 : linspace (-0.5) 0.5 2 (IZR 2 * 1) = [-1; 0].
Proof. rewrite linspace_map. simpl. f_equal; [lra | f_equal; lra]. Qed.

Lemma grid_dim2 (pa elong : R) :
  grid 2 1 pa elong 0 = mkGrid [-1; 0; -1; 0] [-1; -1; 0; 0].
Proof. unfold grid. simpl Z.eqb. cbv iota. rewrite axis_dim2. reflexivity. Qed.

(** C1.  With [dim = 2], [pixel_size = 1], bounds [-0.5] and [0.5] and
    [elliptic = 0], the axis is [[-1; 0]], the planes are
    [xx = [[-1; 0]; [-1; 0]]] and [yy = [[-1; -1]; [0; 0]]], and the radius
    field is [[[sqrt 2; 1]; [1; 0]]], where [sqrt 2 = 1.414...]. *)
Theorem pipeline_dim2 (pa elong : R) :
  let axis := linspace (-0.5) 0.5 2 (IZR 2 * 1) in
  let g := grid 2 1 pa elong 0 in
  axis = [-1; 0] /\
  rows 2 2 (xx g) = [[-1; 0]; [-1; 0]] /\
  rows 2 2 (yy g) = [[-1; -1]; [0; 0]] /\
  rows 2 2 (radius (xx g) (yy g) 2) = [[sqrt 2; 1]; [1; 0]] /\
  1.414 < sqrt 2 < 1.415.
Proof.
  intros axis g.
  assert (Haxis : axis = [-1; 0]) by apply axis_dim2.
  assert (Hg : g = mkGrid [-1; 0; -1; 0] [-1; -1; 0; 0]) by apply grid_dim2.
  rewrite Hg. simpl xx. simpl yy.
  repeat split; try reflexivity; try apply sqrt2_bounds; try exact Haxis.
  rewrite radius_map. unfold load. simpl.
  rewrite (sqrt_cell 0 (-1) 1), (sqrt_cell (-1) 0 1), (sqrt_cell 0 0 0) by lra.
  replace ((-1) * ((-1) * 1) + (-1) * ((-1) * 1)) with 2 by lra.
  reflexivity.
Qed.

(** ** The rotation of the grid *)

(** C2.  When [elliptic] is true (non-zero), every pixel [k] of the grid is
    updated in sequence: [xx' = xx * cos pa - yy * sin pa] and then
    [yy' = (xx' * sin pa + yy * cos pa) / elong], the second equation reading
    the already rotated [xx']; when [elliptic] is false (zero) the two planes
    are the unrotated, undivided broadcasts of the axis. *)
Theorem grid_elliptic_sequential
    (dim : Z) (pixel_size pa elong : R) (elliptic : Z) (k : nat) :
  let n := Z.to_nat dim in
  let x := linspace (-0.5) 0.5 dim (IZR dim * pixel_size) in
  let g0 := mkGrid (meshgrid x dim 1) (meshgrid x dim 0) in
  let g := grid dim pixel_size pa elong elliptic in
  (k < n * n)%nat ->
  (elliptic <> 0%Z ->
     load (xx g) k = load (xx g0) k * cos pa - load (yy g0) k * sin pa /\
     load (yy g) k = (load (xx g) k * sin pa + load (yy g0) k * cos pa) / elong) /\
  (elliptic = 0%Z -> g = g0).
Proof.
  intros n x g0 g Hk. split.
  - intros Hne. now apply grid_rotated.
  - intros ->. reflexivity.
Qed.

Lemma grid_elliptic_sequential_witness :
  let g0 := mkGrid (meshgrid (linspace (-0.5) 0.5 2 (2 * 1)) 2 1)
                   (meshgrid (linspace (-0.5) 0.5 2 (2 * 1)) 2 0) in
  let g := grid 2 1 (PI / 2) 1 1 in
  (1 < Z.to_nat 2 * Z.to_nat 2)%nat /\
  ((1 <> 0)%Z ->
     load (xx g) 1 = load (xx g0) 1 * cos (PI / 2) - load (yy g0) 1 * sin (PI / 2) /\
     load (yy g) 1 =
       (load (xx g) 1 * sin (PI / 2) + load (yy g0) 1 * cos (PI / 2)) / 1) /\
  ((1 = 0)%Z -> g = g0).
Proof.
  intros g0 g.
  assert (Hk : (1 < Z.to_nat 2 * Z.to_nat 2)%nat) by (simpl; lia).
  split; [exact Hk|].
  exact (grid_elliptic_sequential 2 1 (PI / 2) 1 1 1 Hk).
Defined.

(** The sequential update is not the simultaneous rotation: at
    [pa = PI / 2] the pixel [(0, 1)] of the [2 x 2] grid gets [yy' = 1], while
    the formula reading the original [xx] gives [0]. *)
Example grid_rotation_not_simultaneous :
  let g0 := grid 2 1 (PI / 2) 1 0 in
  let g := grid 2 1 (PI / 2) 1 1 in
  load (yy g) 1 = 1 /\
  (load (xx g0) 1 * sin (PI / 2) + load (yy g0) 1 * cos (PI / 2)) / 1 = 0.
Proof.
  intros g0 g.
  assert (Hg0 : g0 = mkGrid [-1; 0; -1; 0] [-1; -1; 0; 0]) by apply grid_dim2.
  destruct (grid_rotated 2 1 (PI / 2) 1 1 1) as [Hx Hy];
    [discriminate | simpl; lia |].
  fold g in Hx, Hy. fold g0 in Hx, Hy.
  rewrite Hy, Hx, Hg0, cos_PI2, sin_PI2. unfold load. simpl. lra.
Qed.

(** ** The linear axis *)

Lemma INR_to_nat (dim : Z) : (0 <= dim)%Z -> INR (Z.to_nat dim) = IZR dim.
Proof. intros Hd. now rewrite INR_IZR_INZ, Z2Nat.id. Qed.






(** ** The coordinate planes *)

(** C4.  For every [dim >= 1] with [elliptic = 0], the two planes have
    [dim * dim] cells; the plane [xx] repeats the axis along rows, [xx[i][j] = axis[j]], so that all rows are equal; the
    plane [yy] repeats it along columns, [yy[i][j] = axis[i]]; hence
    [xx[i][j] = yy[j][i]] for all [i], [j]. *)
Theorem grid_broadcast (dim : Z) (pixel_size pa elong : R) (i j : nat) :
  (1 <= dim)%Z ->
  let n := Z.to_nat dim in
  let axis := linspace (-0.5) 0.5 dim (IZR dim * pixel_size) in
  let g := grid dim pixel_size pa elong 0 in
  (i < n)%nat -> (j < n)%nat ->
  length (xx g) = (n * n)%nat /\
  length (yy g) = (n * n)%nat /\
  at2 (xx g) n i j = load axis j /\
  at2 (yy g) n i j = load axis i /\
  (forall i', (i' < n)%nat -> at2 (xx g) n i' j = at2 (xx g) n i j) /\
  (forall j', (j' < n)%nat -> at2 (yy g) n i j' = at2 (yy g) n i j) /\
  at2 (xx g) n i j = at2 (yy g) n j i.
Proof.
  intros Hdim n axis g Hi Hj.
  assert (Hx : forall i' j', (i' < n)%nat -> (j' < n)%nat ->
                             at2 (xx g) n i' j' = load axis j').
  { intros i' j' Hi' Hj'. unfold g. rewrite grid_plain. simpl xx.
    now rewrite meshgrid_at2. }
  assert (Hy : forall i' j', (i' < n)%nat -> (j' < n)%nat ->
                             at2 (yy g) n i' j' = load axis i').
  { intros i' j' Hi' Hj'. unfold g. rewrite grid_plain. simpl yy.
    now rewrite meshgrid_at2. }
  destruct (grid_lengths dim pixel_size pa elong 0) as [Hlx Hly].
  rewrite to_nat_square in Hlx, Hly by lia.
  repeat split.
  - exact Hlx.
  - exact Hly.
  - now apply Hx.
  - now apply Hy.
  - intros i' Hi'. now rewrite !Hx.
  - intros j' Hj'. now rewrite !Hy.
  - now rewrite Hx, Hy.
Qed.

Lemma grid_broadcast_witness :
  let g := grid 4 1 0 1 0 in
  let axis := linspace (-0.5) 0.5 4 (IZR 4 * 1) in
  (1 <= 4)%Z /\ (1 < Z.to_nat 4)%nat /\ (2 < Z.to_nat 4)%nat /\
  at2 (xx g) (Z.to_nat 4) 1 2 = load axis 2 /\
  at2 (yy g) (Z.to_nat 4) 1 2 = load axis 1 /\
  at2 (xx g) (Z.to_nat 4) 1 2 = at2 (yy g) (Z.to_nat 4) 2 1.
Proof.
  intros g axis.
  assert (H14 : (1 <= 4)%Z) by lia.
  assert (H1 : (1 < Z.to_nat 4)%nat) by (simpl; lia).
  assert (H2 : (2 < Z.to_nat 4)%nat) by (simpl; lia).
  destruct (grid_broadcast 4 1 0 1 1 2 H14 H1 H2)
    as (_ & _ & Hx & Hy & _ & _ & Ht).
  exact (conj H14 (conj H1 (conj H2 (conj Hx (conj Hy Ht))))).
Defined.

(** ** Blackbody radiance *)

Lemma c_pos : 0 < c.
Proof. unfold c. lra. Qed.

Lemma c2_pos : 0 < c2.
Proof. unfold c2. lra. Qed.

Lemma h_pos : 0 < h.
Proof. unfold h. lra. Qed.

Lemma kb_pos : 0 < kb.
Proof. unfold kb. lra. Qed.

(** [c2] is the square of [c] rounded to nine digits, and lies above it. *)
Lemma c2_above_square : c ^ 2 < c2 < c ^ 2 * (1 + 3e-10).
Proof. unfold c, c2. lra. Qed.

(** The same holds of the two constants as binary64 values, the square
    being rounded to nearest. *)
Lemma binary64_c2_above_square :
  PrimFloat.ltb (PrimFloat.mul Binary64.c Binary64.c) Binary64.c2 = true.
Proof. reflexivity. Qed.

Lemma expm1_pos x : 0 < x -> 0 < exp x - 1.
Proof. intros Hx. pose proof (exp_ineq1_le x). lra. Qed.

(** The exponent [h nu / (kb T)] of [bb] is positive. *)
Lemma bb_exponent_pos T lambda :
  0 < T -> 0 < lambda -> 0 < h * (c / lambda) / (kb * T).
Proof.
  intros HT Hl. pose proof h_pos. pose proof c_pos. pose proof kb_pos.
  apply Rdiv_lt_0_compat.
  - apply Rmult_lt_0_compat; [assumption|]. now apply Rdiv_lt_0_compat.
  - now apply Rmult_lt_0_compat.
Qed.

Lemma planck_law_pos T lambda : 0 < T -> 0 < lambda -> 0 < planck_law T lambda.
Proof.
  intros HT Hl. unfold planck_law. cbv zeta.
  pose proof h_pos. pose proof c_pos.
  apply Rmult_lt_0_compat.
  - apply Rdiv_lt_0_compat; [|now apply pow_lt].
    apply Rmult_lt_0_compat; [lra|].
    apply pow_lt. now apply Rdiv_lt_0_compat.
  - apply Rdiv_lt_0_compat; [lra|].
    apply expm1_pos. now apply bb_exponent_pos.
Qed.

Lemma bb_planck_ratio T lambda :
  bb T lambda = c ^ 2 / c2 * planck_law T lambda.
Proof.
  unfold bb, planck_law. cbv zeta.
  generalize (2 * h * (c / lambda) ^ 3) as N.
  generalize (1 / (exp (h * (c / lambda) / (kb * T)) - 1)) as E.
  intros E N. pose proof c_pos. pose proof c2_pos.
  field. split; lra.
Qed.

(** C5 (amended).  For every temperature [T > 0] and wavelength
    [lambda > 0], [bb] returns [(2 h nu^3 / c2) * 1 / (exp (h nu / (k T)) - 1)]
    with [nu = c / lambda], where [c], [h] and [k] are the fixed
    speed-of-light, Planck and Boltzmann constants and the denominator
    constant is [c2 = 8.98755179e+20], which is not the square of the
    speed-of-light constant, [c^2 = 8.9875517873681764e+20]: [bb] is Planck's
    formula with [c2] in the place of [c^2]. *)
Theorem bb_planck_rounded_c2 (T lambda : R) :
  0 < T -> 0 < lambda ->
  let nu := c / lambda in
  bb T lambda =
    (2 * h * nu ^ 3 / 8.98755179e+20) * (1 / (exp (h * nu / (kb * T)) - 1)) /\
  c2 = 8.98755179e+20 /\
  c ^ 2 = 8.9875517873681764e+20 /\
  c2 <> c ^ 2.
Proof.
  intros HT Hl nu.
  split; [reflexivity|]. split; [reflexivity|].
  split; unfold c, c2; lra.
Qed.

Lemma bb_planck_rounded_c2_witness :
  0 < 5000 /\ 0 < 5e-5 /\
  bb 5000 5e-5 =
    (2 * h * (c / 5e-5) ^ 3 / 8.98755179e+20)
    * (1 / (exp (h * (c / 5e-5) / (kb * 5000)) - 1)) /\
  c2 <> c ^ 2.
Proof.
  assert (HT : 0 < 5000) by lra.
  assert (Hl : 0 < 5e-5) by lra.
  destruct (bb_planck_rounded_c2 5000 5e-5 HT Hl) as (Hbb & _ & _ & Hne).
  exact (conj HT (conj Hl (conj Hbb Hne))).
Defined.

(** The constant [c2] differs from the square of [c], and [bb] differs from
    Planck's law, for instance at [T = 5000] K and [lambda = 5e-5] cm. *)
Lemma bb_differs_from_planck :
  c2 <> c ^ 2 /\ bb 5000 5e-5 <> planck_law 5000 5e-5.
Proof.
  split.
  - pose proof c2_above_square. lra.
  - rewrite bb_planck_ratio.
    assert (HP : 0 < planck_law 5000 5e-5) by (apply planck_law_pos; lra).
    assert (Hr : c ^ 2 / c2 < 1) by (unfold c, c2; lra).
    nra.
Qed.

(** In the real-number model [bb] is strictly increasing in the
    temperature. *)
Lemma bb_increasing_real (T1 T2 lambda : R) :
  0 < lambda -> 0 < T1 -> T1 < T2 -> bb T1 lambda < bb T2 lambda.
Proof.
  intros Hl HT1 HT12. unfold bb. cbv zeta.
  pose proof h_pos as Hh. pose proof c_pos as Hc.
  pose proof kb_pos as Hk. pose proof c2_pos as Hc2.
  assert (Hnu : 0 < c / lambda) by now apply Rdiv_lt_0_compat.
  set (nu := c / lambda) in *.
  assert (Hpre : 0 < 2 * h * nu ^ 3 / c2).
  { apply Rdiv_lt_0_compat; [|exact Hc2].
    apply Rmult_lt_0_compat; [lra | now apply pow_lt]. }
  assert (Hhn : 0 < h * nu) by now apply Rmult_lt_0_compat.
  assert (Hx : h * nu / (kb * T2) < h * nu / (kb * T1)).
  { unfold Rdiv. apply Rmult_lt_compat_l; [exact Hhn|].
    apply Rinv_0_lt_contravar; nra. }
  assert (Hx2 : 0 < h * nu / (kb * T2)) by (apply Rdiv_lt_0_compat; nra).
  apply exp_increasing in Hx.
  pose proof (expm1_pos _ Hx2) as He2.
  apply Rmult_lt_compat_l; [exact Hpre|].
  unfold Rdiv. rewrite !Rmult_1_l.
  apply Rinv_0_lt_contravar; lra.
Qed.

(** C8 (amended).  For every fixed wavelength [lambda > 0], [bb] is
    monotonically non-decreasing in the temperature: [0 < T1 < T2] gives
    [bb T1 lambda <= bb T2 lambda].  (The order is not strict in the running
    code, where [exp] overflows at low temperature and [bb] is [0].) *)
Theorem bb_nondecreasing_in_temperature (T1 T2 lambda : R) :
  0 < lambda -> 0 < T1 -> T1 < T2 -> bb T1 lambda <= bb T2 lambda.
Proof.
  intros Hl HT1 HT12. left. now apply bb_increasing_real.
Qed.

Lemma bb_nondecreasing_in_temperature_witness :
  0 < 1e-4 /\ 0 < 3000 /\ 3000 < 6000 /\ bb 3000 1e-4 <= bb 6000 1e-4.
Proof.
  assert (Hl : 0 < 1e-4) by lra.
  assert (H1 : 0 < 3000) by lra.
  assert (H2 : 3000 < 6000) by lra.
  exact (conj Hl (conj H1 (conj H2
           (bb_nondecreasing_in_temperature 3000 6000 1e-4 Hl H1 H2)))).
Defined.

(** ** Intensity *)

(** C6.  For every [dim >= 1], every temperature field [T] of [dim * dim]
    pixels, wavelength [lambda > 0] and pixel size, [intensity] returns a
    field of [dim * dim] pixels with
    [I[i] = bb(T[i], lambda) * pixel_size^2 * 1.0e+23], the last factor being
    the constant [bb_to_jy]. *)
Theorem intensity_pointwise
    (T : array) (lambda pixel_size : R) (dim : Z) (i : nat) :
  (1 <= dim)%Z -> 0 < lambda ->
  length T = Z.to_nat (dim * dim) -> (i < Z.to_nat (dim * dim))%nat ->
  length (intensity T lambda pixel_size dim) = Z.to_nat (dim * dim) /\
  intensity T lambda pixel_size dim !! i =
    Some (bb (load T i) lambda * pixel_size ^ 2 * 1.0e+23) /\
  bb_to_jy = 1.0e+23.
Proof.
  intros Hdim Hl HT Hi. rewrite intensity_map. repeat split.
  - now rewrite length_fmap, length_seq.
  - now rewrite lookup_pointwise.
Qed.

Lemma intensity_pointwise_witness :
  (1 <= 1)%Z /\ 0 < 1e-4 /\
  intensity [6000] 1e-4 2 1 !! 0%nat =
    Some (bb (load [6000] 0) 1e-4 * 2 ^ 2 * 1.0e+23).
Proof.
  assert (Hd : (1 <= 1)%Z) by lia.
  assert (Hl : 0 < 1e-4) by lra.
  assert (Hlen : length [6000] = Z.to_nat (1 * 1)) by reflexivity.
  assert (Hi : (0 < Z.to_nat (1 * 1))%nat) by (simpl; lia).
  destruct (intensity_pointwise [6000] 1e-4 2 1 0 Hd Hl Hlen Hi) as (_ & H & _).
  exact (conj Hd (conj Hl H)).
Defined.

(** ** Optical thickness *)

Lemma optical_thickness_load sdp opacity dim i :
  (i < Z.to_nat (dim * dim))%nat ->
  load (optical_thickness sdp opacity dim) i = 1 - exp (- (load sdp i * opacity)).
Proof.
  intros Hi. rewrite optical_thickness_map, load_pointwise by exact Hi.
  now rewrite Ropp_mult_distr_l.
Qed.

Lemma tau_increasing x1 x2 : x1 < x2 -> 1 - exp (- x1) < 1 - exp (- x2).
Proof.
  intros Hx. assert (H : exp (- x2) < exp (- x1)) by (apply exp_increasing; lra).
  lra.
Qed.

(** Near [0] the optical thickness is at most twice its argument. *)
Lemma tau_small x : Rabs x <= 1 / 2 -> Rabs (1 - exp (- x)) <= 2 * Rabs x.
Proof.
  intros Hx.
  pose proof (exp_ineq1_le (- x)) as Hlow.
  pose proof (exp_ineq1_le x) as Hup.
  pose proof (exp_pos (- x)) as Hpos.
  assert (Hinv : exp (- x) * exp x = 1).
  { rewrite exp_Ropp. apply Rinv_l. pose proof (exp_pos x). lra. }
  revert Hx. unfold Rabs.
  destruct (Rcase_abs x) as [Hneg|Hnn];
    destruct (Rcase_abs (1 - exp (- x))) as [Ht|Ht]; intros Hx; nra.
Qed.

(** Far out the optical thickness is within [1 / x] of [1]. *)
Lemma tau_large x : 0 < x -> Rabs (1 - exp (- x) - 1) < 1 / x.
Proof.
  intros Hx.
  replace (1 - exp (- x) - 1) with (- exp (- x)) by ring.
  rewrite Rabs_Ropp, Rabs_pos_eq by (left; apply exp_pos).
  rewrite exp_Ropp. unfold Rdiv. rewrite Rmult_1_l.
  apply Rinv_0_lt_contravar; [exact Hx|].
  pose proof (exp_ineq1_le x). lra.
Qed.

(** C7 (amended).  The optical thickness [1 - exp (- Sigma * kappa)] written
    at each pixel is monotonically non-decreasing in the product
    [Sigma * kappa]: a larger product never gives a smaller thickness; it
    tends to [0] as the product tends to [0] and to [1] as the product tends
    to [+infinity].  (The order is not strict in the running code, where the
    thickness is exactly [1] for a large product.) *)
Theorem optical_thickness_monotone_saturating (dim : Z) (i : nat) :
  (i < Z.to_nat (dim * dim))%nat ->
  (forall (sdp1 sdp2 : array) (kappa1 kappa2 : R),
     length sdp1 = Z.to_nat (dim * dim) ->
     length sdp2 = Z.to_nat (dim * dim) ->
     load sdp1 i * kappa1 < load sdp2 i * kappa2 ->
     load (optical_thickness sdp1 kappa1 dim) i <=
     load (optical_thickness sdp2 kappa2 dim) i) /\
  (forall eps, 0 < eps ->
     exists delta, 0 < delta /\
       forall (sdp : array) (kappa : R),
         length sdp = Z.to_nat (dim * dim) ->
         Rabs (load sdp i * kappa) < delta ->
         Rabs (load (optical_thickness sdp kappa dim) i) < eps) /\
  (forall eps, 0 < eps ->
     exists bound,
       forall (sdp : array) (kappa : R),
         length sdp = Z.to_nat (dim * dim) ->
         bound < load sdp i * kappa ->
         Rabs (load (optical_thickness sdp kappa dim) i - 1) < eps).
Proof.
  intros Hi. repeat split.
  - intros sdp1 sdp2 kappa1 kappa2 _ _ Hlt.
    rewrite !optical_thickness_load by exact Hi. left. now apply tau_increasing.
  - intros eps Heps. exists (Rmin (1 / 2) (eps / 2)). split.
    + apply Rmin_glb_lt; lra.
    + intros sdp kappa _ Hx. rewrite optical_thickness_load by exact Hi.
      pose proof (Rmin_l (1 / 2) (eps / 2)).
      pose proof (Rmin_r (1 / 2) (eps / 2)).
      pose proof (tau_small (load sdp i * kappa)). lra.
  - intros eps Heps. exists (1 / eps).
    intros sdp kappa _ Hx. rewrite optical_thickness_load by exact Hi.
    assert (Hinv : 0 < 1 / eps) by (apply Rdiv_lt_0_compat; lra).
    assert (Hpos : 0 < load sdp i * kappa) by lra.
    apply Rlt_trans with (1 / (load sdp i * kappa)); [now apply tau_large|].
    apply Rlt_le_trans with (/ (1 / eps)).
    + unfold Rdiv at 1. rewrite Rmult_1_l. now apply Rinv_0_lt_contravar.
    + right. field. lra.
Qed.

Lemma optical_thickness_monotone_saturating_witness :
  (0 < Z.to_nat (1 * 1))%nat /\
  length [1] = Z.to_nat (1 * 1) /\ length [3] = Z.to_nat (1 * 1) /\
  (load [1] 0 * 2 < load [3] 0 * 1 ->
   load (optical_thickness [1] 2 1) 0 <= load (optical_thickness [3] 1 1) 0).
Proof.
  assert (Hi : (0 < Z.to_nat (1 * 1))%nat) by (simpl; lia).
  assert (H1 : length [1] = Z.to_nat (1 * 1)) by reflexivity.
  assert (H3 : length [3] = Z.to_nat (1 * 1)) by reflexivity.
  destruct (optical_thickness_monotone_saturating 1 0 Hi) as (Hmono & _).
  exact (conj Hi (conj H1 (conj H3 (Hmono [1] [3] 2 1 H1 H3)))).
Defined.

(** ** Azimuthal modulation *)

Lemma azimuthal_modulation_lookup xx yy a phi dim i :
  (i < Z.to_nat (dim * dim))%nat ->
  azimuthal_modulation xx yy a phi dim !! i =
  Some (a * cos (atan2 (load yy i) (load xx i) - phi)).
Proof.
  intros Hi. now rewrite azimuthal_modulation_map, lookup_pointwise.
Qed.


Lemma atan_sign_pos z : 0 < z -> 0 < atan z.
Proof. intros Hz. rewrite <- atan_0. now apply atan_increasing. Qed.

Lemma atan_sign_nonpos z : z <= 0 -> atan z <= 0.
Proof.
  intros [Hz | ->].
  - left. rewrite <- atan_0. now apply atan_increasing.
  - right. apply atan_0.
Qed.

(** [atan2] is a four-quadrant angle: it lies in [(-PI, PI]] ... *)
Lemma atan2_range y x : - PI < atan2 y x <= PI.
Proof.
  pose proof PI_RGT_0 as Hpi. unfold atan2.
  destruct (Rlt_dec 0 x) as [Hx|Hx].
  - pose proof (atan_bound (y / x)). lra.
  - destruct (Rlt_dec x 0) as [Hx'|Hx'].
    + pose proof (atan_bound (y / x)) as Hb.
      destruct (Rle_dec 0 y) as [Hy|Hy].
      * assert (Hq : y / x <= 0).
        { unfold Rdiv. assert (/ x < 0) by now apply Rinv_lt_0_compat. nra. }
        apply atan_sign_nonpos in Hq. lra.
      * assert (Hq : 0 < y / x).
        { unfold Rdiv. assert (/ x < 0) by now apply Rinv_lt_0_compat. nra. }
        apply atan_sign_pos in Hq. lra.
    + destruct (Rlt_dec 0 y); [lra|]. destruct (Rlt_dec y 0); lra.
Qed.

Lemma hypot_factor x y :
  x <> 0 -> sqrt (x ^ 2 + y ^ 2) = Rabs x * sqrt (1 + Rsqr (y / x)).
Proof.
  intros Hx.
  replace (x ^ 2 + y ^ 2) with (Rsqr x * (1 + Rsqr (y / x)))
    by (unfold Rsqr; field; exact Hx).
  rewrite sqrt_mult.
  - now rewrite sqrt_Rsqr_abs.
  - apply Rle_0_sqr.
  - pose proof (Rle_0_sqr (y / x)). lra.
Qed.

(** ... and it is the angle of the point [(x, y)], whose distance to the
    origin is what [radius] computes. *)
Lemma atan2_polar y x :
  sqrt (x ^ 2 + y ^ 2) * cos (atan2 y x) = x /\
  sqrt (x ^ 2 + y ^ 2) * sin (atan2 y x) = y.
Proof.
  unfold atan2.
  destruct (Rlt_dec 0 x) as [Hx|Hx]; [|destruct (Rlt_dec x 0) as [Hx'|Hx']].
  - assert (Hs : 0 < sqrt (1 + Rsqr (y / x))).
    { apply sqrt_lt_R0. pose proof (Rle_0_sqr (y / x)). lra. }
    rewrite hypot_factor, cos_atan, sin_atan, Rabs_pos_eq by lra.
    split; field; lra.
  - assert (Hs : 0 < sqrt (1 + Rsqr (y / x))).
    { apply sqrt_lt_R0. pose proof (Rle_0_sqr (y / x)). lra. }
    rewrite hypot_factor, Rabs_left by lra.
    destruct (Rle_dec 0 y) as [Hy|Hy].
    + rewrite neg_cos, neg_sin, cos_atan, sin_atan. split; field; lra.
    + rewrite cos_minus, sin_minus, cos_PI, sin_PI, cos_atan, sin_atan.
      split; field; lra.
  - assert (x = 0) as -> by lra.
    replace (0 ^ 2 + y ^ 2) with (Rsqr y) by (unfold Rsqr; ring).
    rewrite sqrt_Rsqr_abs.
    destruct (Rlt_dec 0 y) as [Hy|Hy]; [|destruct (Rlt_dec y 0) as [Hy'|Hy']].
    + rewrite cos_PI2, sin_PI2, Rabs_pos_eq by lra. lra.
    + replace (- PI / 2) with (- (PI / 2)) by lra.
      rewrite cos_neg, sin_neg, cos_PI2, sin_PI2, Rabs_left by lra. lra.
    + assert (y = 0) as -> by lra. rewrite Rabs_R0. lra.
Qed.

(** C9.  For all input planes and every amplitude [a] and phase [phi], each
    written pixel [M[i] = a * cos (atan2 (yy[i], xx[i]) - phi)] is bounded in
    magnitude by the amplitude: [|M[i]| <= |a|]. *)
Theorem azimuthal_modulation_bounded
    (xx yy : array) (a phi : R) (dim : Z) (i : nat) :
  length xx = Z.to_nat (dim * dim) -> length yy = Z.to_nat (dim * dim) ->
  (i < Z.to_nat (dim * dim))%nat ->
  exists m,
    azimuthal_modulation xx yy a phi dim !! i = Some m /\
    m = a * cos (atan2 (load yy i) (load xx i) - phi) /\
    Rabs m <= Rabs a.
Proof.
  intros Hxx Hyy Hi. eexists. split; [now apply azimuthal_modulation_lookup|].
  split; [reflexivity|].
  rewrite Rabs_mult.
  rewrite <- (Rmult_1_r (Rabs a)) at 2.
  apply Rmult_le_compat_l; [apply Rabs_pos|].
  apply Rabs_le, COS_bound.
Qed.

Lemma azimuthal_modulation_bounded_witness :
  length [3] = Z.to_nat (1 * 1) /\
  length [4] = Z.to_nat (1 * 1) /\
  (0 < Z.to_nat (1 * 1))%nat /\
  exists m,
    azimuthal_modulation [3] [4] 2 1 1 !! 0%nat = Some m /\
    m = 2 * cos (atan2 (load [4] 0) (load [3] 0) - 1) /\
    Rabs m <= Rabs 2.
Proof.
  assert (Hx : length [3] = Z.to_nat (1 * 1)) by reflexivity.
  assert (Hy : length [4] = Z.to_nat (1 * 1)) by reflexivity.
  assert (Hi : (0 < Z.to_nat (1 * 1))%nat) by (simpl; lia).
  exact (conj Hx (conj Hy (conj Hi
           (azimuthal_modulation_bounded [3] [4] 2 1 1 0 Hx Hy Hi)))).
Defined.




(** ** The running code in binary64

    Three properties that hold of the real-number model fail in the running
    code; each is refuted on the binary64 evaluation of the cell. *)

Module Binary64Facts.
Import PrimFloat.

(** [Sigma * kappa = 800] and [900]: [exp] underflows to [0] and the optical
    thickness is exactly [1] for both, so the larger product does not give
    the larger thickness. *)
Lemma optical_thickness_not_strictly_increasing :
  (800 * 1 <? 900 * 1)%float = true /\
  Binary64.optical_thickness_cell 800 1 = Some 1%float /\
  Binary64.optical_thickness_cell 900 1 = Some 1%float /\
  (1 <? 1)%float = false.
Proof. repeat split; reflexivity. Qed.

(** [T = 10] K and [T = 20] K at [lambda = 1e-4] cm: the exponent exceeds
    [710], [exp] overflows and [bb] is exactly [0] at both temperatures, so
    the larger temperature does not give the larger radiance. *)
#[warnings="-inexact-float"] Lemma bb_not_strictly_increasing :
  (0 <? 10)%float = true /\ (10 <? 20)%float = true /\
  (0 <? 1e-4)%float = true /\
  Binary64.bb 10 1e-4 = Some 0%float /\
  Binary64.bb 20 1e-4 = Some 0%float /\
  (0 <? 0)%float = false.
Proof. repeat split; reflexivity. Qed.


End Binary64Facts.

(** * Further properties of the code *)

(** ** The axis and the grid as pixel coordinates *)

Lemma IZR_dim_pos (dim : Z) : (1 <= dim)%Z -> 0 < IZR dim.
Proof. intros Hd. apply IZR_lt. lia. Qed.

(** X1.  The axis of [linspace] is evenly spaced: two neighbours differ by
    [(stop - start) * factor / dim]; it is strictly increasing when that
    step is positive. *)
Theorem linspace_evenly_spaced (start stop factor : R) (dim : Z) (i : nat) :
  (1 <= dim)%Z -> (S i < Z.to_nat dim)%nat ->
  let axis := linspace start stop dim factor in
  load axis (S i) - load axis i = (stop - start) * factor / IZR dim /\
  (0 < (stop - start) * factor -> load axis i < load axis (S i)).
Proof.
  intros Hd Hi axis. pose proof (IZR_dim_pos dim Hd) as Hpos.
  assert (Hstep : load axis (S i) - load axis i
                  = (stop - start) * factor / IZR dim).
  { unfold axis. rewrite !linspace_load by lia. rewrite S_INR.
    unfold Rdiv. ring. }
  split; [exact Hstep|].
  intros Hsign.
  assert (0 < (stop - start) * factor / IZR dim)
    by now apply Rdiv_lt_0_compat.
  lra.
Qed.

Lemma linspace_evenly_spaced_witness :
  (1 <= 4)%Z /\ (S 1 < Z.to_nat 4)%nat /\
  load (linspace 0 2 4 3) 2 - load (linspace 0 2 4 3) 1 = (2 - 0) * 3 / IZR 4.
Proof.
  assert (Hd : (1 <= 4)%Z) by lia.
  assert (Hi : (S 1 < Z.to_nat 4)%nat) by (simpl; lia).
  destruct (linspace_evenly_spaced 0 2 3 4 1 Hd Hi) as [H _].
  exact (conj Hd (conj Hi H)).
Defined.

(** The coordinate that [grid] gives to index [j] of a [dim]-pixel axis. *)
Lemma grid_axis_load (dim : Z) (pixel_size : R) (j : nat) :
  (j < Z.to_nat dim)%nat ->
  load (linspace (-0.5) 0.5 dim (IZR dim * pixel_size)) j
  = (INR j - IZR dim / 2) * pixel_size.
Proof.
  intros Hj. rewrite linspace_load by exact Hj.
  assert (0 < IZR dim) by (apply IZR_dim_pos; lia).
  replace (-0.5) with (- (1 / 2)) by lra.
  replace 0.5 with (1 / 2) by lra.
  field. lra.
Qed.

Lemma grid_xx_at (dim : Z) (pixel_size pa elong : R) (i j : nat) :
  (i < Z.to_nat dim)%nat -> (j < Z.to_nat dim)%nat ->
  at2 (xx (grid dim pixel_size pa elong 0)) (Z.to_nat dim) i j
  = (INR j - IZR dim / 2) * pixel_size.
Proof.
  intros Hi Hj. rewrite grid_plain. simpl xx.
  rewrite meshgrid_at2 by assumption. unfold mesh_value. simpl.
  now apply grid_axis_load.
Qed.

Lemma grid_yy_at (dim : Z) (pixel_size pa elong : R) (i j : nat) :
  (i < Z.to_nat dim)%nat -> (j < Z.to_nat dim)%nat ->
  at2 (yy (grid dim pixel_size pa elong 0)) (Z.to_nat dim) i j
  = (INR i - IZR dim / 2) * pixel_size.
Proof.
  intros Hi Hj. rewrite grid_plain. simpl yy.
  rewrite meshgrid_at2 by assumption. unfold mesh_value. simpl.
  now apply grid_axis_load.
Qed.

(** X2.  Without rotation, pixel [(i, j)] of the grid has the coordinates
    [xx = (j - dim/2) * pixel_size] and [yy = (i - dim/2) * pixel_size]: the
    pixels are [pixel_size] apart and the origin is at index [dim/2]. *)
Theorem grid_pixel_coordinates
    (dim : Z) (pixel_size pa elong : R) (i j : nat) :
  let n := Z.to_nat dim in
  let g := grid dim pixel_size pa elong 0 in
  (i < n)%nat -> (j < n)%nat ->
  at2 (xx g) n i j = (INR j - IZR dim / 2) * pixel_size /\
  at2 (yy g) n i j = (INR i - IZR dim / 2) * pixel_size.
Proof.
  intros n g Hi Hj. split; [now apply grid_xx_at | now apply grid_yy_at].
Qed.

Lemma grid_pixel_coordinates_witness :
  (1 < Z.to_nat 4)%nat /\ (3 < Z.to_nat 4)%nat /\
  at2 (xx (grid 4 2 0 1 0)) (Z.to_nat 4) 1 3 = (INR 3 - IZR 4 / 2) * 2 /\
  at2 (yy (grid 4 2 0 1 0)) (Z.to_nat 4) 1 3 = (INR 1 - IZR 4 / 2) * 2.
Proof.
  assert (H1 : (1 < Z.to_nat 4)%nat) by (simpl; lia).
  assert (H3 : (3 < Z.to_nat 4)%nat) by (simpl; lia).
  exact (conj H1 (conj H3 (grid_pixel_coordinates 4 2 0 1 1 3 H1 H3))).
Defined.

(** X3.  For a positive pixel size every coordinate of the unrotated grid
    lies in the half-open range [[- dim * pixel_size / 2,
    dim * pixel_size / 2)]; the lower end is the coordinate of index [0]. *)
Theorem grid_coordinate_range
    (dim : Z) (pixel_size pa elong : R) (i j : nat) :
  let n := Z.to_nat dim in
  let g := grid dim pixel_size pa elong 0 in
  0 < pixel_size -> (i < n)%nat -> (j < n)%nat ->
  - (IZR dim * pixel_size / 2) <= at2 (xx g) n i j < IZR dim * pixel_size / 2 /\
  - (IZR dim * pixel_size / 2) <= at2 (yy g) n i j < IZR dim * pixel_size / 2 /\
  at2 (xx g) n i 0 = - (IZR dim * pixel_size / 2) /\
  at2 (yy g) n 0 j = - (IZR dim * pixel_size / 2).
Proof.
  intros n g Hps Hi Hj.
  assert (Hd : INR n = IZR dim) by (apply INR_to_nat; lia).
  assert (Hi' : 0 <= INR i < IZR dim).
  { rewrite <- Hd. split; [apply pos_INR | now apply lt_INR]. }
  assert (Hj' : 0 <= INR j < IZR dim).
  { rewrite <- Hd. split; [apply pos_INR | now apply lt_INR]. }
  pose proof (grid_xx_at dim pixel_size pa elong i j Hi Hj) as Hx.
  pose proof (grid_yy_at dim pixel_size pa elong i j Hi Hj) as Hy.
  assert (H0 : (0 < n)%nat) by lia.
  pose proof (grid_xx_at dim pixel_size pa elong i 0 Hi H0) as Hx0.
  pose proof (grid_yy_at dim pixel_size pa elong 0 j H0 Hj) as Hy0.
  fold n in Hx, Hy, Hx0, Hy0. fold g in Hx, Hy, Hx0, Hy0.
  rewrite Hx, Hy, Hx0, Hy0. simpl INR. repeat split; nra.
Qed.

Lemma grid_coordinate_range_witness :
  0 < 2 /\ (1 < Z.to_nat 4)%nat /\ (3 < Z.to_nat 4)%nat /\
  - (IZR 4 * 2 / 2) <= at2 (xx (grid 4 2 0 1 0)) (Z.to_nat 4) 1 3 < IZR 4 * 2 / 2.
Proof.
  assert (Hp : 0 < 2) by lra.
  assert (H1 : (1 < Z.to_nat 4)%nat) by (simpl; lia).
  assert (H3 : (3 < Z.to_nat 4)%nat) by (simpl; lia).
  destruct (grid_coordinate_range 4 2 0 1 1 3 Hp H1 H3) as (H & _).
  exact (conj Hp (conj H1 (conj H3 H))).
Defined.

(** X4.  With [pa = 0] the rotation of an elliptic grid does nothing: [xx] is
    the unrotated plane and [yy] is the unrotated plane divided by [elong]. *)
Theorem grid_elliptic_pa0
    (dim : Z) (pixel_size elong : R) (elliptic : Z) (k : nat) :
  let n := Z.to_nat dim in
  let g0 := grid dim pixel_size 0 elong 0 in
  let g := grid dim pixel_size 0 elong elliptic in
  elliptic <> 0%Z -> (k < n * n)%nat ->
  load (xx g) k = load (xx g0) k /\
  load (yy g) k = load (yy g0) k / elong.
Proof.
  intros n g0 g Hne Hk.
  destruct (grid_rotated dim pixel_size 0 elong elliptic k Hne Hk) as [Hx Hy].
  fold g in Hx, Hy. fold g0 in Hx, Hy.
  rewrite cos_0, sin_0 in Hx, Hy.
  split.
  - rewrite Hx. ring.
  - rewrite Hy. unfold Rdiv. ring.
Qed.

Lemma grid_elliptic_pa0_witness :
  (1 <> 0)%Z /\ (1 < Z.to_nat 2 * Z.to_nat 2)%nat /\
  load (xx (grid 2 1 0 3 1)) 1 = load (xx (grid 2 1 0 3 0)) 1 /\
  load (yy (grid 2 1 0 3 1)) 1 = load (yy (grid 2 1 0 3 0)) 1 / 3.
Proof.
  assert (Hne : (1 <> 0)%Z) by discriminate.
  assert (Hk : (1 < Z.to_nat 2 * Z.to_nat 2)%nat) by (simpl; lia).
  exact (conj Hne (conj Hk (grid_elliptic_pa0 2 1 3 1 1 Hne Hk))).
Defined.

(** X5.  The [yy] plane of an elliptic grid differs from the one a
    simultaneous rotation would give, [(xx * sin pa + yy * cos pa) / elong],
    by exactly [(xx' - xx) * sin pa / elong], [xx'] being the rotated [xx]:
    the two agree at a pixel only where [(xx' - xx) * sin pa / elong = 0]. *)
Theorem grid_elliptic_deviation
    (dim : Z) (pixel_size pa elong : R) (elliptic : Z) (k : nat) :
  let n := Z.to_nat dim in
  let g0 := grid dim pixel_size pa elong 0 in
  let g := grid dim pixel_size pa elong elliptic in
  elliptic <> 0%Z -> (k < n * n)%nat ->
  load (yy g) k
  - (load (xx g0) k * sin pa + load (yy g0) k * cos pa) / elong
  = (load (xx g) k - load (xx g0) k) * sin pa / elong.
Proof.
  intros n g0 g Hne Hk.
  destruct (grid_rotated dim pixel_size pa elong elliptic k Hne Hk) as [_ Hy].
  fold g in Hy. fold g0 in Hy. rewrite Hy. unfold Rdiv. ring.
Qed.

Lemma grid_elliptic_deviation_witness :
  (1 <> 0)%Z /\ (1 < Z.to_nat 2 * Z.to_nat 2)%nat /\
  load (yy (grid 2 1 (PI / 2) 1 1)) 1
  - (load (xx (grid 2 1 (PI / 2) 1 0)) 1 * sin (PI / 2)
     + load (yy (grid 2 1 (PI / 2) 1 0)) 1 * cos (PI / 2)) / 1
  = (load (xx (grid 2 1 (PI / 2) 1 1)) 1 - load (xx (grid 2 1 (PI / 2) 1 0)) 1)
    * sin (PI / 2) / 1.
Proof.
  assert (Hne : (1 <> 0)%Z) by discriminate.
  assert (Hk : (1 < Z.to_nat 2 * Z.to_nat 2)%nat) by (simpl; lia).
  exact (conj Hne (conj Hk (grid_elliptic_deviation 2 1 (PI / 2) 1 1 1 Hne Hk))).
Defined.

(** ** The radius field *)

Lemma radius_load xx yy dim i :
  (i < Z.to_nat (dim * dim))%nat ->
  load (radius xx yy dim) i = sqrt (load xx i ^ 2 + load yy i ^ 2).
Proof. intros Hi. now rewrite radius_map, load_pointwise. Qed.

Lemma sum_squares_nonneg (x y : R) : 0 <= x ^ 2 + y ^ 2.
Proof. nra. Qed.

Lemma hypot_zero (x y : R) : sqrt (x ^ 2 + y ^ 2) = 0 <-> x = 0 /\ y = 0.
Proof.
  split.
  - intros H. apply sqrt_eq_0 in H; [|apply sum_squares_nonneg]. split; nra.
  - intros [-> ->]. replace (0 ^ 2 + 0 ^ 2) with 0 by ring. apply sqrt_0.
Qed.

Lemma hypot_pos (x y : R) : ~ (x = 0 /\ y = 0) -> 0 < sqrt (x ^ 2 + y ^ 2).
Proof.
  intros Hne. destruct (sqrt_pos (x ^ 2 + y ^ 2)) as [H|H]; [exact H|].
  exfalso. apply Hne. apply hypot_zero. now symmetry.
Qed.

Lemma hypot_ge_abs (x y : R) : Rabs x <= sqrt (x ^ 2 + y ^ 2).
Proof.
  rewrite <- sqrt_Rsqr_abs. apply sqrt_le_1_alt. unfold Rsqr. nra.
Qed.

Lemma hypot_le_sum (x y : R) : sqrt (x ^ 2 + y ^ 2) <= Rabs x + Rabs y.
Proof.
  pose proof (Rabs_pos x) as Hx. pose proof (Rabs_pos y) as Hy.
  rewrite <- (sqrt_Rsqr (Rabs x + Rabs y)) by lra.
  apply sqrt_le_1_alt. unfold Rsqr.
  assert (Rabs x * Rabs x = x * x)
    by (rewrite <- Rabs_mult; apply Rabs_pos_eq; nra).
  assert (Rabs y * Rabs y = y * y)
    by (rewrite <- Rabs_mult; apply Rabs_pos_eq; nra).
  nra.
Qed.

(** X6.  A radius is never negative, it is zero exactly where both
    coordinates are zero, and it lies between the larger of [|xx[i]|],
    [|yy[i]|] and their sum. *)
Theorem radius_nonneg_bounds (xx yy : array) (dim : Z) (i : nat) :
  length xx = Z.to_nat (dim * dim) -> length yy = Z.to_nat (dim * dim) ->
  (i < Z.to_nat (dim * dim))%nat ->
  let r := load (radius xx yy dim) i in
  0 <= r /\
  (r = 0 <-> load xx i = 0 /\ load yy i = 0) /\
  Rabs (load xx i) <= r /\ Rabs (load yy i) <= r /\
  r <= Rabs (load xx i) + Rabs (load yy i).
Proof.
  intros Hx Hy Hi r. unfold r. rewrite radius_load by exact Hi.
  split; [apply sqrt_pos|].
  split; [apply hypot_zero|].
  split; [apply hypot_ge_abs|].
  split; [rewrite Rplus_comm; apply hypot_ge_abs | apply hypot_le_sum].
Qed.

Lemma radius_nonneg_bounds_witness :
  length [3] = Z.to_nat (1 * 1) /\ length [-4] = Z.to_nat (1 * 1) /\
  (0 < Z.to_nat (1 * 1))%nat /\
  0 <= load (radius [3] [-4] 1) 0 /\
  Rabs (load [-4] 0) <= load (radius [3] [-4] 1) 0.
Proof.
  assert (Hx : length [3] = Z.to_nat (1 * 1)) by reflexivity.
  assert (Hy : length [-4] = Z.to_nat (1 * 1)) by reflexivity.
  assert (Hi : (0 < Z.to_nat (1 * 1))%nat) by (simpl; lia).
  destruct (radius_nonneg_bounds [3] [-4] 1 0 Hx Hy Hi) as (H0 & _ & _ & H1 & _).
  exact (conj Hx (conj Hy (conj Hi (conj H0 H1)))).
Defined.

Lemma load_fmap_opp (a : array) (i : nat) : load (Ropp <$> a) i = - load a i.
Proof.
  unfold load. rewrite list_lookup_fmap.
  destruct (a !! i); simpl; [reflexivity | ring].
Qed.

(** X7.  The radius field is unchanged when both planes are negated (point
    reflection through the origin) and when the two planes are exchanged. *)
Theorem radius_symmetric (xx yy : array) (dim : Z) :
  length xx = Z.to_nat (dim * dim) -> length yy = Z.to_nat (dim * dim) ->
  radius (Ropp <$> xx) (Ropp <$> yy) dim = radius xx yy dim /\
  radius yy xx dim = radius xx yy dim.
Proof.
  intros Hx Hy. rewrite !radius_map. split.
  - apply list_fmap_ext. intros _ i _. rewrite !load_fmap_opp.
    f_equal. ring.
  - apply list_fmap_ext. intros _ i _. f_equal. ring.
Qed.

Lemma radius_symmetric_witness :
  length [3; 0; 1; 2] = Z.to_nat (2 * 2) /\
  length [4; 1; 0; 2] = Z.to_nat (2 * 2) /\
  radius (Ropp <$> [3; 0; 1; 2]) (Ropp <$> [4; 1; 0; 2]) 2
  = radius [3; 0; 1; 2] [4; 1; 0; 2] 2.
Proof.
  assert (Hx : length [3; 0; 1; 2] = Z.to_nat (2 * 2)) by reflexivity.
  assert (Hy : length [4; 1; 0; 2] = Z.to_nat (2 * 2)) by reflexivity.
  destruct (radius_symmetric [3; 0; 1; 2] [4; 1; 0; 2] 2 Hx Hy) as [H _].
  exact (conj Hx (conj Hy H)).
Defined.

(** The radius of pixel [(i, j)] of the unrotated grid. *)
Lemma grid_radius_at (dim : Z) (pixel_size pa elong : R) (i j : nat) :
  let n := Z.to_nat dim in
  let g := grid dim pixel_size pa elong 0 in
  (i < n)%nat -> (j < n)%nat ->
  at2 (radius (xx g) (yy g) dim) n i j
  = sqrt (((INR j - IZR dim / 2) * pixel_size) ^ 2
          + ((INR i - IZR dim / 2) * pixel_size) ^ 2).
Proof.
  intros n g Hi Hj. unfold at2.
  rewrite radius_load
    by (rewrite (to_nat_square_lt dim (i * n + j)); fold n; nia).
  pose proof (grid_xx_at dim pixel_size pa elong i j Hi Hj) as Hx.
  pose proof (grid_yy_at dim pixel_size pa elong i j Hi Hj) as Hy.
  unfold at2 in Hx, Hy. fold n in Hx, Hy. fold g in Hx, Hy.
  now rewrite Hx, Hy.
Qed.

(** X8.  On the unrotated grid the radius of pixel [(i, j)] is
    [|pixel_size| * sqrt ((j - dim/2)^2 + (i - dim/2)^2)], so the radius field
    is symmetric under transposition. *)
Theorem grid_radius_formula
    (dim : Z) (pixel_size pa elong : R) (i j : nat) :
  let n := Z.to_nat dim in
  let g := grid dim pixel_size pa elong 0 in
  let r := radius (xx g) (yy g) dim in
  (i < n)%nat -> (j < n)%nat ->
  at2 r n i j
  = Rabs pixel_size
    * sqrt ((INR j - IZR dim / 2) ^ 2 + (INR i - IZR dim / 2) ^ 2) /\
  at2 r n i j = at2 r n j i.
Proof.
  intros n g r Hi Hj. unfold r, g.
  rewrite !grid_radius_at by assumption. fold n. split.
  - rewrite <- sqrt_Rsqr_abs, <- sqrt_mult.
    + f_equal. unfold Rsqr. ring.
    + apply Rle_0_sqr.
    + apply sum_squares_nonneg.
  - f_equal. ring.
Qed.

Lemma grid_radius_formula_witness :
  (0 < Z.to_nat 3)%nat /\ (2 < Z.to_nat 3)%nat /\
  at2 (radius (xx (grid 3 2 0 1 0)) (yy (grid 3 2 0 1 0)) 3) (Z.to_nat 3) 0 2
  = at2 (radius (xx (grid 3 2 0 1 0)) (yy (grid 3 2 0 1 0)) 3) (Z.to_nat 3) 2 0.
Proof.
  assert (H0 : (0 < Z.to_nat 3)%nat) by (simpl; lia).
  assert (H2 : (2 < Z.to_nat 3)%nat) by (simpl; lia).
  destruct (grid_radius_formula 3 2 0 1 0 2 H0 H2) as [_ H].
  exact (conj H0 (conj H2 H)).
Defined.

(** X9.  For a non-zero pixel size the radius of the unrotated grid is
    positive at every pixel [(i, j)] other than the centre [2 * i = dim = 2 * j]:
    a zero radius can occur at the pixel [(dim/2, dim/2)] of a grid of even
    dimension only, and a grid of odd dimension has none. *)
Theorem grid_radius_positive_off_centre
    (dim : Z) (pixel_size pa elong : R) (i j : nat) :
  let n := Z.to_nat dim in
  let g := grid dim pixel_size pa elong 0 in
  pixel_size <> 0 -> (i < n)%nat -> (j < n)%nat ->
  (2 * Z.of_nat i <> dim \/ 2 * Z.of_nat j <> dim)%Z ->
  0 < at2 (radius (xx g) (yy g) dim) n i j.
Proof.
  intros n g Hps Hi Hj Hoff. unfold g. rewrite grid_radius_at by assumption.
  apply hypot_pos. intros [Hx Hy].
  assert (Hcoord : forall k : nat,
            (INR k - IZR dim / 2) * pixel_size = 0 -> (2 * Z.of_nat k = dim)%Z).
  { intros k H. rewrite INR_IZR_INZ in H.
    apply Rmult_integral in H. destruct H as [H|H]; [|contradiction].
    apply eq_IZR. rewrite mult_IZR. lra. }
  apply Hcoord in Hx. apply Hcoord in Hy. lia.
Qed.

Lemma grid_radius_positive_off_centre_witness :
  1 <> 0 /\ (2 < Z.to_nat 4)%nat /\ (1 < Z.to_nat 4)%nat /\
  (2 * Z.of_nat 2 <> 4 \/ 2 * Z.of_nat 1 <> 4)%Z /\
  0 < at2 (radius (xx (grid 4 1 0 1 0)) (yy (grid 4 1 0 1 0)) 4) (Z.to_nat 4) 2 1.
Proof.
  assert (Hp : 1 <> 0) by lra.
  assert (H2 : (2 < Z.to_nat 4)%nat) by (simpl; lia).
  assert (H1 : (1 < Z.to_nat 4)%nat) by (simpl; lia).
  assert (Hoff : (2 * Z.of_nat 2 <> 4 \/ 2 * Z.of_nat 1 <> 4)%Z)
    by (right; simpl; lia).
  exact (conj Hp (conj H2 (conj H1 (conj Hoff
           (grid_radius_positive_off_centre 4 1 0 1 2 1 Hp H2 H1 Hoff))))).
Defined.

(** ** The radial profiles *)

Lemma const_temperature_load radius stellar_radius stellar_temperature dim i :
  (i < Z.to_nat (dim * dim))%nat ->
  load (const_temperature radius stellar_radius stellar_temperature dim) i
  = stellar_temperature * sqrt (stellar_radius / (2 * load radius i)).
Proof.
  intros Hi. unfold const_temperature.
  now rewrite (fill_load (fun i => stellar_temperature * sqrt _)).
Qed.

Lemma temperature_power_law_load radius inner_temp inner_radius q dim i :
  (i < Z.to_nat (dim * dim))%nat ->
  load (temperature_power_law radius inner_temp inner_radius q dim) i
  = inner_temp * libm_pow (load radius i / inner_radius) (- q).
Proof.
  intros Hi. unfold temperature_power_law.
  now rewrite (fill_load (fun i => inner_temp * libm_pow _ _)).
Qed.

(** The two power laws are one loop under two names. *)
Lemma surface_density_as_power_law radius inner_radius inner_sigma p dim :
  surface_density_profile radius inner_radius inner_sigma p dim
  = temperature_power_law radius inner_sigma inner_radius p dim.
Proof. reflexivity. Qed.

Lemma surface_density_profile_load radius inner_radius inner_sigma p dim i :
  (i < Z.to_nat (dim * dim))%nat ->
  load (surface_density_profile radius inner_radius inner_sigma p dim) i
  = inner_sigma * libm_pow (load radius i / inner_radius) (- p).
Proof.
  intros Hi. rewrite surface_density_as_power_law.
  now apply temperature_power_law_load.
Qed.

(** *** The model of [pow] *)

Lemma libm_pow_pos (x y : R) : 0 < x -> libm_pow x y = Rpower x y.
Proof.
  intros Hx. unfold libm_pow. destruct (Rlt_dec 0 x); [reflexivity | contradiction].
Qed.

(** With an exponent that is a natural number, [libm_pow] is the power
    written [x ^ n] in [radius], [bb] and [intensity]. *)
Lemma libm_pow_nat (x : R) (n : nat) : libm_pow x (INR n) = x ^ n.
Proof.
  unfold libm_pow. destruct (Rlt_dec 0 x) as [Hx|Hx].
  - now apply Rpower_pow.
  - rewrite Int_part_INR.
    destruct (Req_dec_T (INR n) (IZR (Z.of_nat n))) as [_|Hne].
    + symmetry. apply pow_powerRZ.
    + exfalso. apply Hne. apply INR_IZR_INZ.
Qed.

Lemma libm_pow_exp0 (x : R) : libm_pow x (- 0) = 1.
Proof.
  rewrite Ropp_0. change 0 with (INR 0). rewrite libm_pow_nat. reflexivity.
Qed.

Lemma libm_pow_base1 (y : R) : libm_pow 1 y = 1.
Proof.
  rewrite libm_pow_pos by lra. unfold Rpower.
  now rewrite ln_1, Rmult_0_r, exp_0.
Qed.

Lemma libm_pow_gt0 (x y : R) : 0 < x -> 0 < libm_pow x y.
Proof. intros Hx. rewrite libm_pow_pos by exact Hx. apply exp_pos. Qed.

(** A negative exponent turns the order of positive bases around. *)
Lemma libm_pow_decreasing (x1 x2 q : R) :
  0 < q -> 0 < x1 -> x1 < x2 -> libm_pow x2 (- q) < libm_pow x1 (- q).
Proof.
  intros Hq H1 H12. rewrite !libm_pow_pos by lra. unfold Rpower.
  apply exp_increasing.
  pose proof (ln_increasing x1 x2 H1 H12). nra.
Qed.

Lemma libm_pow_mult (x y e : R) :
  0 < x -> 0 < y -> libm_pow (x * y) e = libm_pow x e * libm_pow y e.
Proof.
  intros Hx Hy.
  rewrite !libm_pow_pos by (try apply Rmult_lt_0_compat; assumption).
  unfold Rpower. rewrite ln_mult by assumption.
  rewrite <- exp_plus. f_equal. ring.
Qed.

(** *** const_temperature *)

(** X10.  At a positive radius the temperature of [const_temperature]
    satisfies [T^2 * 2 r = T_star^2 * R_star]; in particular it equals the
    stellar temperature at half the stellar radius. *)
Theorem const_temperature_dilution
    (radius : array) (stellar_radius stellar_temperature : R)
    (dim : Z) (i : nat) :
  length radius = Z.to_nat (dim * dim) -> (i < Z.to_nat (dim * dim))%nat ->
  0 < load radius i -> 0 <= stellar_radius ->
  let T := load (const_temperature radius stellar_radius stellar_temperature dim) i in
  T ^ 2 * (2 * load radius i) = stellar_temperature ^ 2 * stellar_radius /\
  (2 * load radius i = stellar_radius -> T = stellar_temperature).
Proof.
  intros Hlen Hi Hr HR T. unfold T.
  rewrite const_temperature_load by exact Hi.
  set (r := load radius i) in *.
  assert (Hq : 0 <= stellar_radius / (2 * r)).
  { apply Rmult_le_pos; [exact HR|]. left. apply Rinv_0_lt_compat. lra. }
  split.
  - rewrite Rpow_mult_distr. simpl pow at 2. rewrite Rmult_1_r.
    rewrite sqrt_sqrt by exact Hq. field. lra.
  - intros Heq. rewrite <- Heq.
    replace (2 * r / (2 * r)) with 1 by (field; lra).
    rewrite sqrt_1. ring.
Qed.

Lemma const_temperature_dilution_witness :
  length [2] = Z.to_nat (1 * 1) /\ (0 < Z.to_nat (1 * 1))%nat /\
  0 < load [2] 0 /\ 0 <= 4 /\
  (2 * load [2] 0 = 4 -> load (const_temperature [2] 4 6000 1) 0 = 6000).
Proof.
  assert (Hlen : length [2] = Z.to_nat (1 * 1)) by reflexivity.
  assert (Hi : (0 < Z.to_nat (1 * 1))%nat) by (simpl; lia).
  assert (Hr : 0 < load [2] 0) by (unfold load; simpl; lra).
  assert (HR : 0 <= 4) by lra.
  destruct (const_temperature_dilution [2] 4 6000 1 0 Hlen Hi Hr HR) as [_ H].
  exact (conj Hlen (conj Hi (conj Hr (conj HR H)))).
Defined.

(** X11.  For a positive stellar temperature and radius, the temperature of
    [const_temperature] is positive at every positive radius and strictly
    smaller at the pixel with the larger radius. *)
Theorem const_temperature_decreasing
    (radius : array) (stellar_radius stellar_temperature : R)
    (dim : Z) (i j : nat) :
  length radius = Z.to_nat (dim * dim) ->
  (i < Z.to_nat (dim * dim))%nat -> (j < Z.to_nat (dim * dim))%nat ->
  0 < stellar_radius -> 0 < stellar_temperature ->
  0 < load radius i -> load radius i < load radius j ->
  let T := const_temperature radius stellar_radius stellar_temperature dim in
  0 < load T j /\ load T j < load T i.
Proof.
  intros Hlen Hi Hj HR HT Hri Hrij T. unfold T.
  rewrite !const_temperature_load by assumption.
  set (ri := load radius i) in *. set (rj := load radius j) in *.
  assert (Hqj : 0 < stellar_radius / (2 * rj))
    by (apply Rdiv_lt_0_compat; lra).
  assert (Hlt : stellar_radius / (2 * rj) < stellar_radius / (2 * ri)).
  { unfold Rdiv. apply Rmult_lt_compat_l; [exact HR|].
    apply Rinv_0_lt_contravar; lra. }
  split.
  - apply Rmult_lt_0_compat; [exact HT | now apply sqrt_lt_R0].
  - apply Rmult_lt_compat_l; [exact HT|].
    apply sqrt_lt_1_alt. lra.
Qed.

Lemma const_temperature_decreasing_witness :
  length [1; 4; 9; 16] = Z.to_nat (2 * 2) /\
  (0 < Z.to_nat (2 * 2))%nat /\ (1 < Z.to_nat (2 * 2))%nat /\
  0 < 2 /\ 0 < 6000 /\
  0 < load [1; 4; 9; 16] 0 /\ load [1; 4; 9; 16] 0 < load [1; 4; 9; 16] 1 /\
  load (const_temperature [1; 4; 9; 16] 2 6000 2) 1
  < load (const_temperature [1; 4; 9; 16] 2 6000 2) 0.
Proof.
  assert (Hlen : length [1; 4; 9; 16] = Z.to_nat (2 * 2)) by reflexivity.
  assert (H0 : (0 < Z.to_nat (2 * 2))%nat) by (simpl; lia).
  assert (H1 : (1 < Z.to_nat (2 * 2))%nat) by (simpl; lia).
  assert (HR : 0 < 2) by lra.
  assert (HT : 0 < 6000) by lra.
  assert (Hr0 : 0 < load [1; 4; 9; 16] 0) by (unfold load; simpl; lra).
  assert (Hr1 : load [1; 4; 9; 16] 0 < load [1; 4; 9; 16] 1)
    by (unfold load; simpl; lra).
  destruct (const_temperature_decreasing [1; 4; 9; 16] 2 6000 2 0 1
              Hlen H0 H1 HR HT Hr0 Hr1) as [_ H].
  exact (conj Hlen (conj H0 (conj H1 (conj HR (conj HT (conj Hr0 (conj Hr1 H))))))).
Defined.

(** *** temperature_power_law and surface_density_profile *)

(** X12.  At a pixel whose radius is the (non-zero) inner radius, both power
    laws return their inner value, whatever the exponent. *)
Theorem power_law_at_inner_radius
    (radius : array) (inner inner_radius e : R) (dim : Z) (i : nat) :
  length radius = Z.to_nat (dim * dim) -> (i < Z.to_nat (dim * dim))%nat ->
  inner_radius <> 0 -> load radius i = inner_radius ->
  load (temperature_power_law radius inner inner_radius e dim) i = inner /\
  load (surface_density_profile radius inner_radius inner e dim) i = inner.
Proof.
  intros Hlen Hi HR Hr.
  rewrite surface_density_as_power_law.
  rewrite temperature_power_law_load by exact Hi.
  rewrite Hr. replace (inner_radius / inner_radius) with 1 by (field; exact HR).
  rewrite libm_pow_base1. split; ring.
Qed.

Lemma power_law_at_inner_radius_witness :
  length [5] = Z.to_nat (1 * 1) /\ (0 < Z.to_nat (1 * 1))%nat /\
  5 <> 0 /\ load [5] 0 = 5 /\
  load (temperature_power_law [5] 1500 5 0.75 1) 0 = 1500 /\
  load (surface_density_profile [5] 5 1500 0.75 1) 0 = 1500.
Proof.
  assert (Hlen : length [5] = Z.to_nat (1 * 1)) by reflexivity.
  assert (Hi : (0 < Z.to_nat (1 * 1))%nat) by (simpl; lia).
  assert (HR : 5 <> 0) by lra.
  assert (Hr : load [5] 0 = 5) by reflexivity.
  exact (conj Hlen (conj Hi (conj HR (conj Hr
           (power_law_at_inner_radius [5] 1500 5 0.75 1 0 Hlen Hi HR Hr))))).
Defined.

(** X13.  With exponent [0] both power laws are flat: every pixel holds the
    inner value, whatever the radius field and the inner radius. *)
Theorem power_law_flat
    (radius : array) (inner inner_radius : R) (dim : Z) (i : nat) :
  length radius = Z.to_nat (dim * dim) -> (i < Z.to_nat (dim * dim))%nat ->
  load (temperature_power_law radius inner inner_radius 0 dim) i = inner /\
  load (surface_density_profile radius inner_radius inner 0 dim) i = inner.
Proof.
  intros Hlen Hi.
  rewrite surface_density_as_power_law.
  rewrite temperature_power_law_load by exact Hi.
  rewrite libm_pow_exp0. split; ring.
Qed.

Lemma power_law_flat_witness :
  length [0] = Z.to_nat (1 * 1) /\ (0 < Z.to_nat (1 * 1))%nat /\
  load (temperature_power_law [0] 1500 7 0 1) 0 = 1500.
Proof.
  assert (Hlen : length [0] = Z.to_nat (1 * 1)) by reflexivity.
  assert (Hi : (0 < Z.to_nat (1 * 1))%nat) by (simpl; lia).
  destruct (power_law_flat [0] 1500 7 1 0 Hlen Hi) as [H _].
  exact (conj Hlen (conj Hi H)).
Defined.

(** X14.  For a positive inner value, inner radius and exponent, both power
    laws are positive at every positive radius and strictly smaller at the
    pixel with the larger radius. *)
Theorem power_law_decreasing
    (radius : array) (inner inner_radius e : R) (dim : Z) (i j : nat) :
  length radius = Z.to_nat (dim * dim) ->
  (i < Z.to_nat (dim * dim))%nat -> (j < Z.to_nat (dim * dim))%nat ->
  0 < inner -> 0 < inner_radius -> 0 < e ->
  0 < load radius i -> load radius i < load radius j ->
  let T := temperature_power_law radius inner inner_radius e dim in
  let S := surface_density_profile radius inner_radius inner e dim in
  (0 < load T j /\ load T j < load T i) /\
  (0 < load S j /\ load S j < load S i).
Proof.
  intros Hlen Hi Hj Hin HR He Hri Hrij T S.
  unfold S. rewrite surface_density_as_power_law. fold T.
  assert (Hgoal : 0 < load T j /\ load T j < load T i); [|now split].
  unfold T. rewrite !temperature_power_law_load by assumption.
  set (ri := load radius i) in *. set (rj := load radius j) in *.
  assert (Hbi : 0 < ri / inner_radius) by (apply Rdiv_lt_0_compat; lra).
  assert (Hbij : ri / inner_radius < rj / inner_radius).
  { unfold Rdiv. apply Rmult_lt_compat_r; [now apply Rinv_0_lt_compat | exact Hrij]. }
  split.
  - apply Rmult_lt_0_compat; [exact Hin | apply libm_pow_gt0; lra].
  - apply Rmult_lt_compat_l; [exact Hin | now apply libm_pow_decreasing].
Qed.

Lemma power_law_decreasing_witness :
  length [1; 4; 9; 16] = Z.to_nat (2 * 2) /\
  (0 < Z.to_nat (2 * 2))%nat /\ (1 < Z.to_nat (2 * 2))%nat /\
  0 < 1500 /\ 0 < 2 /\ 0 < 0.75 /\
  0 < load [1; 4; 9; 16] 0 /\ load [1; 4; 9; 16] 0 < load [1; 4; 9; 16] 1 /\
  load (temperature_power_law [1; 4; 9; 16] 1500 2 0.75 2) 1
  < load (temperature_power_law [1; 4; 9; 16] 1500 2 0.75 2) 0.
Proof.
  assert (Hlen : length [1; 4; 9; 16] = Z.to_nat (2 * 2)) by reflexivity.
  assert (H0 : (0 < Z.to_nat (2 * 2))%nat) by (simpl; lia).
  assert (H1 : (1 < Z.to_nat (2 * 2))%nat) by (simpl; lia).
  assert (Hin : 0 < 1500) by lra.
  assert (HR : 0 < 2) by lra.
  assert (He : 0 < 0.75) by lra.
  assert (Hr0 : 0 < load [1; 4; 9; 16] 0) by (unfold load; simpl; lra).
  assert (Hr1 : load [1; 4; 9; 16] 0 < load [1; 4; 9; 16] 1)
    by (unfold load; simpl; lra).
  destruct (power_law_decreasing [1; 4; 9; 16] 1500 2 0.75 2 0 1
              Hlen H0 H1 Hin HR He Hr0 Hr1) as [[_ H] _].
  exact (conj Hlen (conj H0 (conj H1 (conj Hin (conj HR (conj He
           (conj Hr0 (conj Hr1 H)))))))).
Defined.

(** X15.  The power laws are scale free: where one pixel's radius is [k]
    times another's, [k > 0], its value is [pow(k, -e)] times the other's. *)
Theorem power_law_scaling
    (radius : array) (inner inner_radius e k : R) (dim : Z) (i j : nat) :
  length radius = Z.to_nat (dim * dim) ->
  (i < Z.to_nat (dim * dim))%nat -> (j < Z.to_nat (dim * dim))%nat ->
  0 < inner_radius -> 0 < k ->
  0 < load radius i -> load radius j = k * load radius i ->
  let T := temperature_power_law radius inner inner_radius e dim in
  let S := surface_density_profile radius inner_radius inner e dim in
  load T j = libm_pow k (- e) * load T i /\
  load S j = libm_pow k (- e) * load S i.
Proof.
  intros Hlen Hi Hj HR Hk Hri Hrj T S.
  unfold S. rewrite surface_density_as_power_law. fold T.
  assert (Hgoal : load T j = libm_pow k (- e) * load T i); [|now split].
  unfold T. rewrite !temperature_power_law_load by assumption.
  rewrite Hrj.
  replace (k * load radius i / inner_radius)
    with (k * (load radius i / inner_radius)) by (unfold Rdiv; ring).
  rewrite libm_pow_mult; [ring | exact Hk | apply Rdiv_lt_0_compat; lra].
Qed.

Lemma power_law_scaling_witness :
  length [1; 4; 9; 16] = Z.to_nat (2 * 2) /\
  (0 < Z.to_nat (2 * 2))%nat /\ (1 < Z.to_nat (2 * 2))%nat /\
  0 < 2 /\ 0 < 4 /\
  0 < load [1; 4; 9; 16] 0 /\ load [1; 4; 9; 16] 1 = 4 * load [1; 4; 9; 16] 0 /\
  load (temperature_power_law [1; 4; 9; 16] 1500 2 0.75 2) 1
  = libm_pow 4 (- (0.75)) * load (temperature_power_law [1; 4; 9; 16] 1500 2 0.75 2) 0.
Proof.
  assert (Hlen : length [1; 4; 9; 16] = Z.to_nat (2 * 2)) by reflexivity.
  assert (H0 : (0 < Z.to_nat (2 * 2))%nat) by (simpl; lia).
  assert (H1 : (1 < Z.to_nat (2 * 2))%nat) by (simpl; lia).
  assert (HR : 0 < 2) by lra.
  assert (Hk : 0 < 4) by lra.
  assert (Hr0 : 0 < load [1; 4; 9; 16] 0) by (unfold load; simpl; lra).
  assert (Hr1 : load [1; 4; 9; 16] 1 = 4 * load [1; 4; 9; 16] 0)
    by (unfold load; simpl; lra).
  destruct (power_law_scaling [1; 4; 9; 16] 1500 2 0.75 4 2 0 1
              Hlen H0 H1 HR Hk Hr0 Hr1) as [H _].
  exact (conj Hlen (conj H0 (conj H1 (conj HR (conj Hk (conj Hr0 (conj Hr1 H))))))).
Defined.

Lemma inv_sqrt_as_pow (x : R) : 0 < x -> sqrt (/ x) = libm_pow x (- (1 / 2)).
Proof.
  intros Hx. rewrite libm_pow_pos by exact Hx.
  rewrite Rpower_Ropp. replace (1 / 2) with (/ 2) by lra.
  rewrite Rpower_sqrt by exact Hx. apply sqrt_inv.
Qed.

(** X16.  At every positive radius [const_temperature] is the power law of
    [temperature_power_law] with exponent [1/2], inner temperature
    [stellar_temperature] and inner radius [stellar_radius / 2]. *)
Theorem const_temperature_as_power_law
    (radius : array) (stellar_radius stellar_temperature : R)
    (dim : Z) (i : nat) :
  length radius = Z.to_nat (dim * dim) -> (i < Z.to_nat (dim * dim))%nat ->
  0 < stellar_radius -> 0 < load radius i ->
  load (const_temperature radius stellar_radius stellar_temperature dim) i =
  load (temperature_power_law radius stellar_temperature
          (stellar_radius / 2) (1 / 2) dim) i.
Proof.
  intros Hlen Hi HR Hr.
  rewrite const_temperature_load, temperature_power_law_load by exact Hi.
  set (r := load radius i) in *.
  rewrite <- inv_sqrt_as_pow by (apply Rdiv_lt_0_compat; lra).
  do 2 f_equal. field. lra.
Qed.

Lemma const_temperature_as_power_law_witness :
  length [3] = Z.to_nat (1 * 1) /\ (0 < Z.to_nat (1 * 1))%nat /\
  0 < 2 /\ 0 < load [3] 0 /\
  load (const_temperature [3] 2 6000 1) 0 =
  load (temperature_power_law [3] 6000 (2 / 2) (1 / 2) 1) 0.
Proof.
  assert (Hlen : length [3] = Z.to_nat (1 * 1)) by reflexivity.
  assert (Hi : (0 < Z.to_nat (1 * 1))%nat) by (simpl; lia).
  assert (HR : 0 < 2) by lra.
  assert (Hr : 0 < load [3] 0) by (unfold load; simpl; lra).
  exact (conj Hlen (conj Hi (conj HR (conj Hr
           (const_temperature_as_power_law [3] 2 6000 1 0 Hlen Hi HR Hr))))).
Defined.

(** ** Optical thickness *)

Lemma tau_at_zero : 1 - exp (- 0) = 0.
Proof. rewrite Ropp_0, exp_0. ring. Qed.

(** X17.  The optical thickness never exceeds [1]; it is zero where the
    product of surface density and opacity is zero (so everywhere for a zero
    opacity), not negative where that product is not negative, and not
    positive where it is not positive. *)
Theorem optical_thickness_range
    (sdp : array) (opacity : R) (dim : Z) (i : nat) :
  length sdp = Z.to_nat (dim * dim) -> (i < Z.to_nat (dim * dim))%nat ->
  let tau := load (optical_thickness sdp opacity dim) i in
  tau <= 1 /\
  (load sdp i * opacity = 0 -> tau = 0) /\
  (0 <= load sdp i * opacity -> 0 <= tau) /\
  (load sdp i * opacity <= 0 -> tau <= 0).
Proof.
  intros Hlen Hi tau. unfold tau. rewrite optical_thickness_load by exact Hi.
  set (x := load sdp i * opacity).
  pose proof (exp_pos (- x)) as Hpos.
  pose proof tau_at_zero as H0.
  assert (Hneg : x < 0 -> 1 - exp (- x) < 0)
    by (intros H; rewrite <- H0; now apply tau_increasing).
  assert (Hposx : 0 < x -> 0 < 1 - exp (- x))
    by (intros H; rewrite <- H0; now apply tau_increasing).
  split; [lra|]. split; [|split].
  - intros ->. exact H0.
  - intros [H|H]; [left; now apply Hposx | rewrite <- H, H0; lra].
  - intros [H|H]; [left; now apply Hneg | rewrite H, H0; lra].
Qed.

Lemma optical_thickness_range_witness :
  length [3] = Z.to_nat (1 * 1) /\ (0 < Z.to_nat (1 * 1))%nat /\
  load (optical_thickness [3] 0 1) 0 <= 1 /\
  (load [3] 0 * 0 = 0 -> load (optical_thickness [3] 0 1) 0 = 0).
Proof.
  assert (Hlen : length [3] = Z.to_nat (1 * 1)) by reflexivity.
  assert (Hi : (0 < Z.to_nat (1 * 1))%nat) by (simpl; lia).
  destruct (optical_thickness_range [3] 0 1 0 Hlen Hi) as (H1 & H2 & _).
  exact (conj Hlen (conj Hi (conj H1 H2))).
Defined.

(** X18.  For a disk with positive inner surface density, inner radius,
    opacity and exponent, the optical thickness computed from
    [surface_density_profile] lies between [0] and [1] at every positive
    radius and does not grow outwards: the pixel with the larger radius has
    the thickness that is not larger. *)
Theorem disk_optical_thickness
    (radius : array) (inner_radius inner_sigma p opacity : R)
    (dim : Z) (i j : nat) :
  length radius = Z.to_nat (dim * dim) ->
  (i < Z.to_nat (dim * dim))%nat -> (j < Z.to_nat (dim * dim))%nat ->
  0 < inner_radius -> 0 < inner_sigma -> 0 < p -> 0 < opacity ->
  0 < load radius i -> load radius i < load radius j ->
  let tau :=
    optical_thickness
      (surface_density_profile radius inner_radius inner_sigma p dim)
      opacity dim in
  0 <= load tau j /\ load tau j <= load tau i /\ load tau i <= 1.
Proof.
  intros Hlen Hi Hj HR Hs Hp Hk Hri Hrij tau. unfold tau.
  rewrite !optical_thickness_load by assumption.
  rewrite !surface_density_profile_load by assumption.
  set (ri := load radius i) in *. set (rj := load radius j) in *.
  assert (Hbi : 0 < ri / inner_radius) by (apply Rdiv_lt_0_compat; lra).
  assert (Hbij : ri / inner_radius < rj / inner_radius).
  { unfold Rdiv. apply Rmult_lt_compat_r; [now apply Rinv_0_lt_compat | exact Hrij]. }
  pose proof (libm_pow_gt0 (rj / inner_radius) (- p)) as Hpj.
  pose proof (libm_pow_decreasing _ _ p Hp Hbi Hbij) as Hdec.
  assert (Hxj : 0 < inner_sigma * libm_pow (rj / inner_radius) (- p) * opacity).
  { apply Rmult_lt_0_compat; [|exact Hk].
    apply Rmult_lt_0_compat; [exact Hs | apply Hpj; lra]. }
  assert (Hxij : inner_sigma * libm_pow (rj / inner_radius) (- p) * opacity
                 < inner_sigma * libm_pow (ri / inner_radius) (- p) * opacity).
  { apply Rmult_lt_compat_r; [exact Hk|]. now apply Rmult_lt_compat_l. }
  split; [|split].
  - left. rewrite <- tau_at_zero. now apply tau_increasing.
  - left. now apply tau_increasing.
  - pose proof (exp_pos (- (inner_sigma * libm_pow (ri / inner_radius) (- p)
                             * opacity))). lra.
Qed.

Lemma disk_optical_thickness_witness :
  length [1; 4; 9; 16] = Z.to_nat (2 * 2) /\
  (0 < Z.to_nat (2 * 2))%nat /\ (1 < Z.to_nat (2 * 2))%nat /\
  0 < 2 /\ 0 < 10 /\ 0 < 1.5 /\ 0 < 3 /\
  0 < load [1; 4; 9; 16] 0 /\ load [1; 4; 9; 16] 0 < load [1; 4; 9; 16] 1 /\
  0 <= load (optical_thickness (surface_density_profile [1; 4; 9; 16] 2 10 1.5 2) 3 2) 1 /\
  load (optical_thickness (surface_density_profile [1; 4; 9; 16] 2 10 1.5 2) 3 2) 1
  <= load (optical_thickness (surface_density_profile [1; 4; 9; 16] 2 10 1.5 2) 3 2) 0 /\
  load (optical_thickness (surface_density_profile [1; 4; 9; 16] 2 10 1.5 2) 3 2) 0 <= 1.
Proof.
  assert (Hlen : length [1; 4; 9; 16] = Z.to_nat (2 * 2)) by reflexivity.
  assert (H0 : (0 < Z.to_nat (2 * 2))%nat) by (simpl; lia).
  assert (H1 : (1 < Z.to_nat (2 * 2))%nat) by (simpl; lia).
  assert (HR : 0 < 2) by lra.
  assert (Hs : 0 < 10) by lra.
  assert (Hp : 0 < 1.5) by lra.
  assert (Hk : 0 < 3) by lra.
  assert (Hr0 : 0 < load [1; 4; 9; 16] 0) by (unfold load; simpl; lra).
  assert (Hr1 : load [1; 4; 9; 16] 0 < load [1; 4; 9; 16] 1)
    by (unfold load; simpl; lra).
  exact (conj Hlen (conj H0 (conj H1 (conj HR (conj Hs (conj Hp (conj Hk
           (conj Hr0 (conj Hr1
              (disk_optical_thickness [1; 4; 9; 16] 2 10 1.5 3 2 0 1
                 Hlen H0 H1 HR Hs Hp Hk Hr0 Hr1)))))))))).
Defined.

(** ** Blackbody radiance and intensity *)

(** X19.  For positive temperature and wavelength [bb] is not negative and
    does not exceed the Rayleigh-Jeans value [2 nu^2 k T / c2], with
    [nu = c / lambda]. *)
Theorem bb_below_rayleigh_jeans (T lambda : R) :
  0 < T -> 0 < lambda ->
  let nu := c / lambda in
  0 <= bb T lambda /\ bb T lambda <= 2 * nu ^ 2 * kb * T / c2.
Proof.
  intros HT Hl nu. unfold bb. cbv zeta. fold nu.
  pose proof h_pos as Hh. pose proof c_pos as Hc.
  pose proof kb_pos as Hk. pose proof c2_pos as Hc2.
  assert (Hnu : 0 < nu) by (unfold nu; now apply Rdiv_lt_0_compat).
  assert (Hx : 0 < h * nu / (kb * T)) by now apply bb_exponent_pos.
  set (x := h * nu / (kb * T)) in *.
  assert (Hpre : 0 < 2 * h * nu ^ 3 / c2).
  { apply Rdiv_lt_0_compat; [|exact Hc2].
    apply Rmult_lt_0_compat; [lra | now apply pow_lt]. }
  pose proof (expm1_pos x Hx) as Hden.
  assert (Hfac : 0 < 1 / (exp x - 1)) by (apply Rdiv_lt_0_compat; lra).
  assert (Hrj : 1 / (exp x - 1) <= 1 / x).
  { unfold Rdiv. rewrite !Rmult_1_l. apply Rinv_le_contravar; [exact Hx|].
    pose proof (exp_ineq1_le x). lra. }
  split.
  - left. now apply Rmult_lt_0_compat.
  - apply Rle_trans with (2 * h * nu ^ 3 / c2 * (1 / x)).
    + apply Rmult_le_compat_l; [lra | exact Hrj].
    + right. unfold x. field. repeat split; lra.
Qed.

Lemma bb_below_rayleigh_jeans_witness :
  0 < 5000 /\ 0 < 5e-5 /\
  0 <= bb 5000 5e-5 /\
  bb 5000 5e-5 <= 2 * (c / 5e-5) ^ 2 * kb * 5000 / c2.
Proof.
  assert (HT : 0 < 5000) by lra.
  assert (Hl : 0 < 5e-5) by lra.
  exact (conj HT (conj Hl (bb_below_rayleigh_jeans 5000 5e-5 HT Hl))).
Defined.

(** X20.  [bb] obeys the displacement scaling: multiplying the temperature
    by [k > 0] and dividing the wavelength by [k] multiplies the radiance by
    [k^3]. *)
Theorem bb_displacement_scaling (T lambda k : R) :
  0 < T -> 0 < lambda -> 0 < k ->
  bb (k * T) (lambda / k) = k ^ 3 * bb T lambda.
Proof.
  intros HT Hl Hk. unfold bb. cbv zeta.
  pose proof kb_pos as Hkb.
  replace (c / (lambda / k)) with (k * (c / lambda)) by (field; lra).
  replace (h * (k * (c / lambda)) / (kb * (k * T)))
    with (h * (c / lambda) / (kb * T)) by (field; lra).
  unfold Rdiv. ring.
Qed.

Lemma bb_displacement_scaling_witness :
  0 < 3000 /\ 0 < 1e-4 /\ 0 < 2 /\
  bb (2 * 3000) (1e-4 / 2) = 2 ^ 3 * bb 3000 1e-4.
Proof.
  assert (HT : 0 < 3000) by lra.
  assert (Hl : 0 < 1e-4) by lra.
  assert (Hk : 0 < 2) by lra.
  exact (conj HT (conj Hl (conj Hk (bb_displacement_scaling 3000 1e-4 2 HT Hl Hk)))).
Defined.

Lemma intensity_load temperature_profile wavelength pixel_size dim i :
  (i < Z.to_nat (dim * dim))%nat ->
  load (intensity temperature_profile wavelength pixel_size dim) i
  = bb (load temperature_profile i) wavelength * pixel_size ^ 2 * bb_to_jy.
Proof. intros Hi. now rewrite intensity_map, load_pointwise. Qed.

Lemma bb_pos (T lambda : R) : 0 < T -> 0 < lambda -> 0 < bb T lambda.
Proof.
  intros HT Hl. rewrite bb_planck_ratio.
  apply Rmult_lt_0_compat; [|now apply planck_law_pos].
  apply Rdiv_lt_0_compat; [apply pow_lt, c_pos | apply c2_pos].
Qed.

(** X21.  The intensity of a pixel is not negative for a positive
    temperature and wavelength, and it is quadratic in the pixel size:
    scaling the pixel size by [k] scales every pixel by [k^2]. *)
Theorem intensity_nonneg_quadratic
    (T : array) (lambda pixel_size k : R) (dim : Z) (i : nat) :
  length T = Z.to_nat (dim * dim) -> (i < Z.to_nat (dim * dim))%nat ->
  0 < lambda -> 0 < load T i ->
  0 <= load (intensity T lambda pixel_size dim) i /\
  load (intensity T lambda (k * pixel_size) dim) i
  = k ^ 2 * load (intensity T lambda pixel_size dim) i.
Proof.
  intros Hlen Hi Hl HT. rewrite !intensity_load by exact Hi.
  pose proof (bb_pos (load T i) lambda HT Hl) as Hbb.
  split.
  - unfold bb_to_jy. apply Rmult_le_pos; [|lra].
    apply Rmult_le_pos; [lra | nra].
  - ring.
Qed.

Lemma intensity_nonneg_quadratic_witness :
  length [6000] = Z.to_nat (1 * 1) /\ (0 < Z.to_nat (1 * 1))%nat /\
  0 < 1e-4 /\ 0 < load [6000] 0 /\
  0 <= load (intensity [6000] 1e-4 2 1) 0 /\
  load (intensity [6000] 1e-4 (3 * 2) 1) 0
  = 3 ^ 2 * load (intensity [6000] 1e-4 2 1) 0.
Proof.
  assert (Hlen : length [6000] = Z.to_nat (1 * 1)) by reflexivity.
  assert (Hi : (0 < Z.to_nat (1 * 1))%nat) by (simpl; lia).
  assert (Hl : 0 < 1e-4) by lra.
  assert (HT : 0 < load [6000] 0) by (unfold load; simpl; lra).
  exact (conj Hlen (conj Hi (conj Hl (conj HT
           (intensity_nonneg_quadratic [6000] 1e-4 2 3 1 0 Hlen Hi Hl HT))))).
Defined.

(** ** Azimuthal modulation *)

Lemma azimuthal_modulation_load xx yy a phi dim i :
  (i < Z.to_nat (dim * dim))%nat ->
  load (azimuthal_modulation xx yy a phi dim) i
  = a * cos (atan2 (load yy i) (load xx i) - phi).
Proof. intros Hi. now rewrite azimuthal_modulation_map, load_pointwise. Qed.

(** The cosine of the modulation, times the distance to the origin. *)
Lemma hypot_cos_atan2 (x y phi : R) :
  sqrt (x ^ 2 + y ^ 2) * cos (atan2 y x - phi) = x * cos phi + y * sin phi.
Proof.
  destruct (atan2_polar y x) as [Hc Hs].
  rewrite cos_minus.
  rewrite Rmult_plus_distr_l, <- !Rmult_assoc, Hc, Hs. reflexivity.
Qed.

(** X22.  Radius times modulation is the projection of the pixel on the
    direction [phi]: [radius[i] * M[i] = a * (xx[i] * cos phi + yy[i] * sin phi)]
    at every pixel, the origin included. *)
Theorem azimuthal_modulation_projection
    (xx yy : array) (a phi : R) (dim : Z) (i : nat) :
  length xx = Z.to_nat (dim * dim) -> length yy = Z.to_nat (dim * dim) ->
  (i < Z.to_nat (dim * dim))%nat ->
  load (radius xx yy dim) i * load (azimuthal_modulation xx yy a phi dim) i
  = a * (load xx i * cos phi + load yy i * sin phi).
Proof.
  intros Hx Hy Hi.
  rewrite radius_load, azimuthal_modulation_load by exact Hi.
  rewrite <- hypot_cos_atan2. ring.
Qed.

Lemma azimuthal_modulation_projection_witness :
  length [3] = Z.to_nat (1 * 1) /\ length [4] = Z.to_nat (1 * 1) /\
  (0 < Z.to_nat (1 * 1))%nat /\
  load (radius [3] [4] 1) 0 * load (azimuthal_modulation [3] [4] 2 1 1) 0
  = 2 * (load [3] 0 * cos 1 + load [4] 0 * sin 1).
Proof.
  assert (Hx : length [3] = Z.to_nat (1 * 1)) by reflexivity.
  assert (Hy : length [4] = Z.to_nat (1 * 1)) by reflexivity.
  assert (Hi : (0 < Z.to_nat (1 * 1))%nat) by (simpl; lia).
  exact (conj Hx (conj Hy (conj Hi
           (azimuthal_modulation_projection [3] [4] 2 1 1 0 Hx Hy Hi)))).
Defined.

Lemma atan2_scale (k y x : R) : 0 < k -> atan2 (k * y) (k * x) = atan2 y x.
Proof.
  intros Hk. unfold atan2.
  assert (Hq : x <> 0 -> k * y / (k * x) = y / x) by (intros; field; lra).
  destruct (Rlt_dec 0 (k * x)) as [H1|H1]; destruct (Rlt_dec 0 x) as [H2|H2];
    try (exfalso; nra).
  - now rewrite Hq by lra.
  - destruct (Rlt_dec (k * x) 0) as [H3|H3]; destruct (Rlt_dec x 0) as [H4|H4];
      try (exfalso; nra).
    + rewrite Hq by lra.
      destruct (Rle_dec 0 (k * y)) as [H5|H5]; destruct (Rle_dec 0 y) as [H6|H6];
        try reflexivity; exfalso; nra.
    + destruct (Rlt_dec 0 (k * y)) as [H5|H5]; destruct (Rlt_dec 0 y) as [H6|H6];
        try reflexivity; try (exfalso; nra).
      destruct (Rlt_dec (k * y) 0) as [H7|H7]; destruct (Rlt_dec y 0) as [H8|H8];
        try reflexivity; exfalso; nra.
Qed.

Lemma load_fmap_scale (k : R) (a : array) (i : nat) :
  load (Rmult k <$> a) i = k * load a i.
Proof.
  unfold load. rewrite list_lookup_fmap.
  destruct (a !! i); simpl; [reflexivity | ring].
Qed.

(** X23.  The modulation depends on the direction of a pixel only: scaling
    both coordinate planes by the same positive factor (a change of pixel
    size, say) leaves the modulation field unchanged. *)
Theorem azimuthal_modulation_scale_invariant
    (xx yy : array) (a phi k : R) (dim : Z) :
  length xx = Z.to_nat (dim * dim) -> length yy = Z.to_nat (dim * dim) ->
  0 < k ->
  azimuthal_modulation (Rmult k <$> xx) (Rmult k <$> yy) a phi dim
  = azimuthal_modulation xx yy a phi dim.
Proof.
  intros Hx Hy Hk. rewrite !azimuthal_modulation_map.
  apply list_fmap_ext. intros _ i _.
  now rewrite !load_fmap_scale, atan2_scale.
Qed.

Lemma azimuthal_modulation_scale_invariant_witness :
  length [3] = Z.to_nat (1 * 1) /\ length [4] = Z.to_nat (1 * 1) /\ 0 < 5 /\
  azimuthal_modulation (Rmult 5 <$> [3]) (Rmult 5 <$> [4]) 2 1 1
  = azimuthal_modulation [3] [4] 2 1 1.
Proof.
  assert (Hx : length [3] = Z.to_nat (1 * 1)) by reflexivity.
  assert (Hy : length [4] = Z.to_nat (1 * 1)) by reflexivity.
  assert (Hk : 0 < 5) by lra.
  exact (conj Hx (conj Hy (conj Hk
           (azimuthal_modulation_scale_invariant [3] [4] 2 1 5 1 Hx Hy Hk)))).
Defined.

(** X24.  Away from the origin the modulation is odd under point
    reflection: negating both coordinates of a pixel negates its
    modulation. *)
Theorem azimuthal_modulation_odd
    (xx yy : array) (a phi : R) (dim : Z) (i : nat) :
  length xx = Z.to_nat (dim * dim) -> length yy = Z.to_nat (dim * dim) ->
  (i < Z.to_nat (dim * dim))%nat ->
  ~ (load xx i = 0 /\ load yy i = 0) ->
  load (azimuthal_modulation (Ropp <$> xx) (Ropp <$> yy) a phi dim) i
  = - load (azimuthal_modulation xx yy a phi dim) i.
Proof.
  intros Hx Hy Hi Hne.
  rewrite !azimuthal_modulation_load by exact Hi.
  rewrite !load_fmap_opp.
  set (x := load xx i) in *. set (y := load yy i) in *.
  pose proof (hypot_pos x y Hne) as Hr.
  pose proof (hypot_cos_atan2 x y phi) as H1.
  pose proof (hypot_cos_atan2 (- x) (- y) phi) as H2.
  replace ((- x) ^ 2 + (- y) ^ 2) with (x ^ 2 + y ^ 2) in H2 by ring.
  apply Rmult_eq_reg_l with (sqrt (x ^ 2 + y ^ 2)); [|lra].
  transitivity (a * (sqrt (x ^ 2 + y ^ 2) * cos (atan2 (- y) (- x) - phi)));
    [ring|].
  rewrite H2.
  transitivity (- a * (sqrt (x ^ 2 + y ^ 2) * cos (atan2 y x - phi)));
    [|ring].
  rewrite H1. ring.
Qed.

Lemma azimuthal_modulation_odd_witness :
  length [3] = Z.to_nat (1 * 1) /\ length [4] = Z.to_nat (1 * 1) /\
  (0 < Z.to_nat (1 * 1))%nat /\ ~ (load [3] 0 = 0 /\ load [4] 0 = 0) /\
  load (azimuthal_modulation (Ropp <$> [3]) (Ropp <$> [4]) 2 1 1) 0
  = - load (azimuthal_modulation [3] [4] 2 1 1) 0.
Proof.
  assert (Hx : length [3] = Z.to_nat (1 * 1)) by reflexivity.
  assert (Hy : length [4] = Z.to_nat (1 * 1)) by reflexivity.
  assert (Hi : (0 < Z.to_nat (1 * 1))%nat) by (simpl; lia).
  assert (Hne : ~ (load [3] 0 = 0 /\ load [4] 0 = 0))
    by (unfold load; simpl; intros [H _]; lra).
  exact (conj Hx (conj Hy (conj Hi (conj Hne
           (azimuthal_modulation_odd [3] [4] 2 1 1 0 Hx Hy Hi Hne))))).
Defined.

(** X25.  The modulation reaches its amplitude in the direction [phi]: at a
    pixel [(rho * cos phi, rho * sin phi)] with [rho > 0] it is exactly
    [a]. *)
Theorem azimuthal_modulation_peak
    (xx yy : array) (a phi rho : R) (dim : Z) (i : nat) :
  length xx = Z.to_nat (dim * dim) -> length yy = Z.to_nat (dim * dim) ->
  (i < Z.to_nat (dim * dim))%nat ->
  0 < rho -> load xx i = rho * cos phi -> load yy i = rho * sin phi ->
  load (azimuthal_modulation xx yy a phi dim) i = a.
Proof.
  intros Hx Hy Hi Hrho Hxi Hyi.
  rewrite azimuthal_modulation_load by exact Hi. rewrite Hxi, Hyi.
  pose proof (sin2_cos2 phi) as Hsc. unfold Rsqr in Hsc.
  pose proof (hypot_cos_atan2 (rho * cos phi) (rho * sin phi) phi) as H.
  assert (Hr : sqrt ((rho * cos phi) ^ 2 + (rho * sin phi) ^ 2) = rho).
  { replace ((rho * cos phi) ^ 2 + (rho * sin phi) ^ 2) with (rho * rho) by nra.
    apply sqrt_square. lra. }
  rewrite Hr in H.
  assert (Hcos : cos (atan2 (rho * sin phi) (rho * cos phi) - phi) = 1).
  { apply Rmult_eq_reg_l with rho; [|lra]. rewrite H. nra. }
  rewrite Hcos. ring.
Qed.

Lemma azimuthal_modulation_peak_witness :
  length [2 * cos 1] = Z.to_nat (1 * 1) /\
  length [2 * sin 1] = Z.to_nat (1 * 1) /\
  (0 < Z.to_nat (1 * 1))%nat /\ 0 < 2 /\
  load (azimuthal_modulation [2 * cos 1] [2 * sin 1] 7 1 1) 0 = 7.
Proof.
  assert (Hx : length [2 * cos 1] = Z.to_nat (1 * 1)) by reflexivity.
  assert (Hy : length [2 * sin 1] = Z.to_nat (1 * 1)) by reflexivity.
  assert (Hi : (0 < Z.to_nat (1 * 1))%nat) by (simpl; lia).
  assert (Hrho : 0 < 2) by lra.
  exact (conj Hx (conj Hy (conj Hi (conj Hrho
           (azimuthal_modulation_peak [2 * cos 1] [2 * sin 1] 7 1 2 1 0
              Hx Hy Hi Hrho eq_refl eq_refl))))).
Defined.

(** ** The pipeline on a grid of odd dimension *)

Lemma odd_dim_coordinate_nonzero (dim : Z) (pixel_size : R) (k : nat) :
  Z.odd dim = true -> pixel_size <> 0 ->
  (INR k - IZR dim / 2) * pixel_size <> 0.
Proof.
  intros Hodd Hps H.
  apply Rmult_integral in H. destruct H as [H|H]; [|contradiction].
  rewrite INR_IZR_INZ in H.
  assert (Heq : (2 * Z.of_nat k = dim)%Z)
    by (apply eq_IZR; rewrite mult_IZR; lra).
  rewrite <- Heq, Z.odd_mul in Hodd. discriminate.
Qed.

(** X26.  On an unrotated grid of odd dimension with a non-zero pixel size,
    the whole chain [grid], [radius], [const_temperature], [intensity] meets
    no zero radius: for a positive stellar radius, stellar temperature and
    wavelength every pixel has a positive radius and a positive temperature,
    and its intensity is not negative. *)
Theorem odd_grid_pipeline_regular
    (dim : Z) (pixel_size pa elong stellar_radius stellar_temperature lambda : R)
    (i j : nat) :
  let n := Z.to_nat dim in
  let g := grid dim pixel_size pa elong 0 in
  let r := radius (xx g) (yy g) dim in
  let T := const_temperature r stellar_radius stellar_temperature dim in
  let flux := intensity T lambda pixel_size dim in
  Z.odd dim = true -> pixel_size <> 0 ->
  0 < stellar_radius -> 0 < stellar_temperature -> 0 < lambda ->
  (i < n)%nat -> (j < n)%nat ->
  0 < at2 r n i j /\ 0 < at2 T n i j /\ 0 <= at2 flux n i j.
Proof.
  intros n g r T flux Hodd Hps HR HT Hl Hi Hj.
  assert (Hk : (i * n + j < Z.to_nat (dim * dim))%nat)
    by (rewrite (to_nat_square_lt dim (i * n + j)); fold n; nia).
  assert (Hr : 0 < at2 r n i j).
  { unfold r, g. rewrite grid_radius_at by assumption.
    apply hypot_pos. intros [Hx _]. revert Hx.
    now apply odd_dim_coordinate_nonzero. }
  assert (HTpos : 0 < at2 T n i j).
  { unfold at2, T. rewrite const_temperature_load by exact Hk.
    apply Rmult_lt_0_compat; [exact HT|]. apply sqrt_lt_R0.
    apply Rdiv_lt_0_compat; [exact HR|]. unfold at2 in Hr. lra. }
  split; [exact Hr|]. split; [exact HTpos|].
  unfold at2, flux. rewrite intensity_load by exact Hk.
  unfold bb_to_jy. apply Rmult_le_pos; [|lra].
  apply Rmult_le_pos; [|nra].
  left. apply bb_pos; [exact HTpos | exact Hl].
Qed.

Lemma odd_grid_pipeline_regular_witness :
  Z.odd 3 = true /\ 2 <> 0 /\ 0 < 1 /\ 0 < 6000 /\ 0 < 1e-4 /\
  (1 < Z.to_nat 3)%nat /\
  0 < at2 (radius (xx (grid 3 2 0 1 0)) (yy (grid 3 2 0 1 0)) 3) (Z.to_nat 3) 1 1 /\
  0 < at2 (const_temperature
             (radius (xx (grid 3 2 0 1 0)) (yy (grid 3 2 0 1 0)) 3) 1 6000 3)
          (Z.to_nat 3) 1 1 /\
  0 <= at2 (intensity
              (const_temperature
                 (radius (xx (grid 3 2 0 1 0)) (yy (grid 3 2 0 1 0)) 3) 1 6000 3)
              1e-4 2 3) (Z.to_nat 3) 1 1.
Proof.
  assert (Hodd : Z.odd 3 = true) by reflexivity.
  assert (Hps : 2 <> 0) by lra.
  assert (HR : 0 < 1) by lra.
  assert (HT : 0 < 6000) by lra.
  assert (Hl : 0 < 1e-4) by lra.
  assert (H1 : (1 < Z.to_nat 3)%nat) by (simpl; lia).
  exact (conj Hodd (conj Hps (conj HR (conj HT (conj Hl (conj H1
           (odd_grid_pipeline_regular 3 2 0 1 1 6000 1e-4 1 1
              Hodd Hps HR HT Hl H1 H1))))))).
Defined.
